(** * scrypted-remote: the remote-device bridge plugin (src/main.ts)

    A shallow embedding of [ScryptedRemotePlugin]: the capability filter
    [filtered], the proxy wiring [setupProxies], the session set-up
    [tryLogin] and the discovery pass [discoverDevices], together with the
    properties the specification states about them. *)

From Stdlib Require Import ZArith.
From stdpp Require Import gmap strings list fin_maps.

Open Scope string_scope.
Open Scope list_scope.

(** ** Values and SDK declarations *)

(** The tags of the SDK's [ScryptedInterface] string enum that the plugin
    names.  In the SDK each member's value is its own name; a device's
    [interfaces] is a plain [string[]]. *)
Module ScryptedInterface.
Definition VideoCamera : string := "VideoCamera".
Definition Camera : string := "Camera".
Definition RTCSignalingChannel : string := "RTCSignalingChannel".
Definition Battery : string := "Battery".
Definition MotionSensor : string := "MotionSensor".
End ScryptedInterface.

(** JavaScript values that travel through the plugin untouched. *)
Inductive Value :=
| VUndefined
| VBool (b : bool)
| VNum (n : Z)
| VStr (s : string).

(** [RequestMediaStreamOptions]: a plain object, used as a map of fields. *)
Abbreviation RequestMediaStreamOptions := (gmap string Value).

(** [MediaObject] is opaque to the plugin. *)
Definition MediaObject := string.

(** The SDK's [Device] record, as built by the object literal in
    [discoverDevices]. *)
Record Device := mkDevice {
  name : string;
  type : string;
  interfaces : list string;
  info : option string;
  nativeId : string
}.

(** What a [throw] carries. *)
Inductive JsError :=
| ConfigurationError (msg : string)
| ConnectError (msg : string)
| TypeError
| AccessFault
| UnknownDevice (msg : string).

(** The outcome of evaluating an expression or awaiting a promise. *)
Inductive Completion (A : Type) :=
| Return (a : A)
| Throw (e : JsError).
Arguments Return {A} a.
Arguments Throw {A} e.

(** The lines written with [this.console.log]. *)
Inductive LogEntry :=
| LogConnected (serverVersion : string)
| LogCannotAccess (id : string)
| LogNotSupported (name : string)
| LogFound (name : string) (device : Device)
| LogDiscovered (count : nat).

(** ** The capability filter *)

(** [allowedInterfaces], the constant array inside [filtered]. *)
Definition allowedInterfaces : list string :=
  [ ScryptedInterface.VideoCamera;
    ScryptedInterface.Camera;
    ScryptedInterface.RTCSignalingChannel;
    ScryptedInterface.Battery;
    ScryptedInterface.MotionSensor ].

(** [allowedInterfaces.filter(i => device.interfaces.includes(i))] *)
Definition intersection (device : Device) : list string :=
  filter (λ i, i ∈ interfaces device) allowedInterfaces.

(** [filtered]: [None] stands for the [null] result.  The assignment
    [device.interfaces = intersection] rebinds the field of the descriptor
    object; every other field is kept. *)
Definition filtered (device : Device) : option Device :=
  let intersection := intersection device in
  if decide (length intersection = 0%nat) then None
  else Some {| name := name device;
               type := type device;
               interfaces := intersection;
               info := info device;
               nativeId := nativeId device |}.

(** ** Remote handles, the session and the plugin's world *)

(** Remote device handles are JavaScript objects: the registry, the session
    and [setupProxies] all refer to the same object, so handles are
    references into a store of objects. *)
Abbreviation loc := positive.

(** The [details] argument of a listener callback. *)
Record EventDetails := mkEventDetails {
  property : option string;
  eventInterface : string
}.

(** How reading [remoteDevice.nativeId] ends: with the value, or with the
    fault a stale handle raises. *)
Inductive Access (A : Type) :=
| Readable (a : A)
| Faulty.
Arguments Readable {A} a.
Arguments Faulty {A}.

(** The options object handed to [connectScryptedClient]. *)
Record ScryptedClientOptions := mkClientOptions {
  o_baseUrl : string;
  o_pluginId : string;
  o_username : string;
  o_password : string;
  o_rejectUnauthorized : bool
}.

(** [ScryptedClientStatic], as far as the plugin looks into it:
    [systemState] lists the keys of [systemManager.getSystemState()] in the
    order [for (const id in state)] visits them, [deviceById] is
    [systemManager.getDeviceById] ([None] for [undefined]). *)
Record ScryptedClientStatic := mkClient {
  serverVersion : string;
  systemState : list string;
  deviceById : gmap string loc
}.

(** [settingsStorage.values]; an unset field reads as [undefined]. *)
Record StorageValues := mkValues {
  baseUrl : option string;
  username : option string;
  password : option string
}.

Section Plugin.

(** The remote hub's own state, on which remote calls act. *)
Context {RW : Type}.

(** A remote asynchronous method, awaited: it acts on the remote hub and
    resolves or rejects. *)
Definition RemoteMethod (A B : Type) : Type := A → RW → Completion B * RW.

(** A [ScryptedDevice] handle.  [rd_listeners] holds what was registered
    with [listen]: the interface and the descriptor the callback closes
    over. *)
Record ScryptedDevice := mkRemote {
  rd_name : string;
  rd_type : string;
  rd_interfaces : list string;
  rd_info : option string;
  rd_id : string;
  rd_nativeId : Access (option string);
  rd_batteryLevel : Value;
  rd_getVideoStream : RemoteMethod (option RequestMediaStreamOptions) MediaObject;
  rd_listeners : list (string * Device)
}.

(** The plugin instance with everything it acts upon: its fields [client],
    [devices] and [settingsStorage]; the handle objects; the remote hub; the
    calls made to [connectScryptedClient]; the host's [deviceManager]
    ([onDevicesChanged] batches, [getDeviceState] slots, [onDeviceEvent]
    calls); and the console. *)
Record World := mkWorld {
  client : option ScryptedClientStatic;
  devices : gmap string loc;
  settingsStorage : StorageValues;
  heap : gmap loc ScryptedDevice;
  remote : RW;
  network : list ScryptedClientOptions;
  devicesChanged : list (list Device);
  deviceState : gmap string (gmap string Value);
  deviceEvents : list (string * string * Value);
  console : list LogEntry
}.

Definition set_client (c : option ScryptedClientStatic) (w : World) : World :=
  mkWorld c (devices w) (settingsStorage w) (heap w) (remote w) (network w)
          (devicesChanged w) (deviceState w) (deviceEvents w) (console w).

Definition set_devices (f : gmap string loc → gmap string loc) (w : World) : World :=
  mkWorld (client w) (f (devices w)) (settingsStorage w) (heap w) (remote w) (network w)
          (devicesChanged w) (deviceState w) (deviceEvents w) (console w).

Definition set_settingsStorage (v : StorageValues) (w : World) : World :=
  mkWorld (client w) (devices w) v (heap w) (remote w) (network w)
          (devicesChanged w) (deviceState w) (deviceEvents w) (console w).

Definition set_heap (f : gmap loc ScryptedDevice → gmap loc ScryptedDevice) (w : World) : World :=
  mkWorld (client w) (devices w) (settingsStorage w) (f (heap w)) (remote w) (network w)
          (devicesChanged w) (deviceState w) (deviceEvents w) (console w).

Definition set_remote (r : RW) (w : World) : World :=
  mkWorld (client w) (devices w) (settingsStorage w) (heap w) r (network w)
          (devicesChanged w) (deviceState w) (deviceEvents w) (console w).

Definition record_connect (o : ScryptedClientOptions) (w : World) : World :=
  mkWorld (client w) (devices w) (settingsStorage w) (heap w) (remote w) (network w ++ [o])
          (devicesChanged w) (deviceState w) (deviceEvents w) (console w).

(** [deviceManager.onDevicesChanged({ devices })] *)
Definition onDevicesChanged (batch : list Device) (w : World) : World :=
  mkWorld (client w) (devices w) (settingsStorage w) (heap w) (remote w) (network w)
          (devicesChanged w ++ [batch]) (deviceState w) (deviceEvents w) (console w).

(** [deviceManager.getDeviceState(nativeId)[property] = data] *)
Definition setDeviceState (nativeId property : string) (data : Value) (w : World) : World :=
  mkWorld (client w) (devices w) (settingsStorage w) (heap w) (remote w) (network w)
          (devicesChanged w)
          (<[nativeId := <[property := data]> (default ∅ (deviceState w !! nativeId))]> (deviceState w))
          (deviceEvents w) (console w).

(** [deviceManager.onDeviceEvent(nativeId, eventInterface, data)] *)
Definition onDeviceEvent (nativeId eventInterface : string) (data : Value) (w : World) : World :=
  mkWorld (client w) (devices w) (settingsStorage w) (heap w) (remote w) (network w)
          (devicesChanged w) (deviceState w)
          (deviceEvents w ++ [(nativeId, eventInterface, data)]) (console w).

(** [this.console.log(...)] *)
Definition console_log (e : LogEntry) (w : World) : World :=
  mkWorld (client w) (devices w) (settingsStorage w) (heap w) (remote w) (network w)
          (devicesChanged w) (deviceState w) (deviceEvents w) (console w ++ [e]).

(** A freshly constructed plugin, before the constructor's
    [clearTryDiscoverDevices] runs. *)
Definition initial (v : StorageValues) (h : gmap loc ScryptedDevice) (r : RW) : World :=
  mkWorld None ∅ v h r [] [] ∅ [] [].

(** Plugin methods: state is threaded, a [throw] keeps the state reached. *)
Definition M (A : Type) : Type := World → Completion A * World.

Definition ret {A} (a : A) : M A := λ w, (Return a, w).
Definition throw {A} (e : JsError) : M A := λ w, (Throw e, w).
Definition bind {A B} (m : M A) (k : A → M B) : M B :=
  λ w, match m w with
       | (Return a, w1) => k a w1
       | (Throw e, w1) => (Throw e, w1)
       end.
Definition modify (f : World → World) : M unit := λ w, (Return tt, f w).


Notation "x <- m ;; k" := (bind m (λ x, k))
  (at level 100, m at next level, right associativity, only parsing).
Notation "m ;; k" := (bind m (λ _, k))
  (at level 100, right associativity, only parsing).

(** [xs.map(f)] run for its effects, left to right; a [throw] ends it. *)
Fixpoint forEach {A} (f : A → M unit) (xs : list A) : M unit :=
  match xs with
  | [] => ret tt
  | x :: rest => f x ;; forEach f rest
  end.

(** Following a handle to its object.  Touching [undefined] is a
    [TypeError]; so is, in this model, a reference with no object behind
    it. *)
Definition deref (remoteDevice : option loc) : M (loc * ScryptedDevice) :=
  λ w, match remoteDevice with
       | Some l => match heap w !! l with
                   | Some rd => (Return (l, rd), w)
                   | None => (Throw TypeError, w)
                   end
       | None => (Throw TypeError, w)
       end.

(** ** Proxy wiring *)

(** The callback [setupProxies] registers: [(source, details, data) => ...] *)
Definition callback (device : Device) (details : EventDetails) (data : Value)
  : World → World :=
  match property details with
  | Some p =>
      if decide (p = "") then onDeviceEvent (nativeId device) (eventInterface details) data
      else setDeviceState (nativeId device) p data
  | None => onDeviceEvent (nativeId device) (eventInterface details) data
  end.

(** [remoteDevice.listen(iface, callback)] *)
Definition listen (remoteDevice : option loc) (device : Device) (iface : string) : M unit :=
  p <- deref remoteDevice ;;
  let '(l, rd) := p in
  modify (set_heap (<[l := mkRemote (rd_name rd) (rd_type rd) (rd_interfaces rd) (rd_info rd)
                                    (rd_id rd) (rd_nativeId rd) (rd_batteryLevel rd)
                                    (rd_getVideoStream rd)
                                    (rd_listeners rd ++ [(iface, device)])]>)).

(** [newGetVideoStream], closed over [remoteGetVideoStream]; [None] is a
    call without options. *)
Definition newGetVideoStream
    (remoteGetVideoStream : RemoteMethod (option RequestMediaStreamOptions) MediaObject)
  : RemoteMethod (option RequestMediaStreamOptions) MediaObject :=
  λ options,
    let options := match options with
                   | None => ∅
                   | Some options => options
                   end in
    let options := <["route" := VStr "external"]> options in
    remoteGetVideoStream (Some options).

(** [remoteDevice.getVideoStream = f] *)
Definition assignGetVideoStream (remoteDevice : option loc)
    (f : RemoteMethod (option RequestMediaStreamOptions) MediaObject) : M unit :=
  p <- deref remoteDevice ;;
  let '(l, rd) := p in
  modify (set_heap (<[l := mkRemote (rd_name rd) (rd_type rd) (rd_interfaces rd) (rd_info rd)
                                    (rd_id rd) (rd_nativeId rd) (rd_batteryLevel rd)
                                    f (rd_listeners rd)]>)).

Definition setupProxies (device : Device) (remoteDevice : option loc) : M unit :=
  forEach (listen remoteDevice device) (interfaces device) ;;
  (if decide (ScryptedInterface.Battery ∈ interfaces device) then
     p <- deref remoteDevice ;;
     let rd := p.2 in
     modify (setDeviceState (nativeId device) "batteryLevel" (rd_batteryLevel rd))
   else ret tt) ;;
  (if decide (ScryptedInterface.VideoCamera ∈ interfaces device) then
     p <- deref remoteDevice ;;
     let rd := p.2 in
     let remoteGetVideoStream := rd_getVideoStream rd in
     assignGetVideoStream remoteDevice (newGetVideoStream remoteGetVideoStream)
   else ret tt).

(** Awaiting [remoteDevice.getVideoStream(options)] on a handle. *)
Definition getVideoStream (remoteDevice : option loc)
    (options : option RequestMediaStreamOptions) : M MediaObject :=
  λ w, match deref remoteDevice w with
       | (Return (_, rd), w) =>
           let '(r, rw) := rd_getVideoStream rd options (remote w) in (r, set_remote rw w)
       | (Throw e, w) => (Throw e, w)
       end.

(** ** Session *)

(** JavaScript truthiness of a setting: [undefined] and the empty string
    are falsy. *)
Definition truthy (v : option string) : bool :=
  match v with
  | Some s => bool_decide (s ≠ "")
  | None => false
  end.

Section Session.

(** [connectScryptedClient] of [@scrypted/client], awaited. *)
Variable connectScryptedClient : RemoteMethod ScryptedClientOptions ScryptedClientStatic.

Definition tryLogin : M unit :=
  modify (set_client None) ;;
  values <- (λ w, (Return (settingsStorage w), w)) ;;
  if negb (truthy (baseUrl values)) || negb (truthy (username values))
     || negb (truthy (password values)) then
    throw (ConfigurationError
      "Initializing remote Scrypted login requires the base URL, username, and password")
  else
    let options := {| o_baseUrl := default "" (baseUrl values);
                      o_pluginId := "@scrypted/core";
                      o_username := default "" (username values);
                      o_password := default "" (password values);
                      o_rejectUnauthorized := false |} in
    c <- (λ w, let '(r, rw) := connectScryptedClient options (remote w) in
               (r, set_remote rw (record_connect options w))) ;;
    modify (set_client (Some c)) ;;
    modify (console_log (LogConnected (serverVersion c))).

(** ** Discovery *)

(** The [try { remoteDevice.nativeId; } catch { ... }] probe. *)
Definition testAccess (remoteDevice : option loc) : M (loc * ScryptedDevice) :=
  p <- deref remoteDevice ;;
  match rd_nativeId p.2 with
  | Readable _ => ret p
  | Faulty => throw AccessFault
  end.

(** The object literal given to [filtered] in [discoverDevices]. *)
Definition describe (remoteDevice : ScryptedDevice) : Device :=
  {| name := rd_name remoteDevice;
     type := rd_type remoteDevice;
     interfaces := rd_interfaces remoteDevice;
     info := rd_info remoteDevice;
     nativeId := rd_id remoteDevice |}.

(** One turn of [for (const id in state)]; the first component is the
    local array [devices]. *)
Definition discoverStep (c : ScryptedClientStatic)
    (acc : list Device * World) (id : string) : list Device * World :=
  let '(batch, w) := acc in
  let remoteDevice := deviceById c !! id in
  match testAccess remoteDevice w with
  | (Throw _, w) => (batch, console_log (LogCannotAccess id) w)
  | (Return (l, rd), w) =>
      match filtered (describe rd) with
      | None => (batch, console_log (LogNotSupported (rd_name rd)) w)
      | Some device =>
          (batch ++ [device],
           set_devices <[nativeId device := l]>
             (console_log (LogFound (rd_name rd) device) w))
      end
  end.

Definition discoverLoop (c : ScryptedClientStatic) (state : list string)
    (acc : list Device * World) : list Device * World :=
  foldl (discoverStep c) acc state.

(** [devices.map(device => this.setupProxies(device, this.devices.get(device.nativeId)))] *)
Definition wireAll (batch : list Device) : M unit :=
  forEach (λ device w, setupProxies device (devices w !! nativeId device) w) batch.

Definition discoverDevices (duration : Z) : M unit :=
  λ w, match client w with
       | None => (Return tt, w)
       | Some c =>
           let state := systemState c in
           let '(batch, w) := discoverLoop c state ([], w) in
           (modify (onDevicesChanged batch) ;;
            wireAll batch ;;
            modify (console_log (LogDiscovered (length batch)))) w
       end.

Definition clearTryDiscoverDevices : M unit :=
  tryLogin ;;
  discoverDevices 0.

Definition getDevice (nativeId : string) : M loc :=
  λ w, match devices w !! nativeId with
       | Some remoteDevice => (Return remoteDevice, w)
       | None => (Throw (UnknownDevice nativeId), w)
       end.

Definition releaseDevice (id nativeId : string) : M unit :=
  modify (set_devices (delete nativeId)).

(** ** Collaborators that misbehave

    [discoverDevices] above is the pass with collaborators that behave.
    The probe guards the read of [nativeId] only: what is read at
    main.ts:141-147 and filtered at main.ts:50 is outside the [try], and
    the host call at main.ts:158 is awaited, so a pass can end with a
    throw after it has registered devices. *)

(** Reading [remoteDevice.interfaces] of a handle that passed the probe:
    the declared list, [undefined], or a throw. *)
Inductive Reading :=
| Defined
| Undefined
| Throwing (e : JsError).

(** How the session's handles and the host answer during one pass:
    [readInterfaces] for each handle, [devicesChangedAnswer] for the
    awaited [deviceManager.onDevicesChanged] ([None]: it resolves). *)
Record Collaborators := mkCollaborators {
  readInterfaces : loc → Reading;
  devicesChangedAnswer : list Device → option JsError
}.

Definition wellBehaved : Collaborators :=
  {| readInterfaces := λ _, Defined; devicesChangedAnswer := λ _, None |}.

(** [this.filtered(<Device>{ ... })] at main.ts:141-147: on [undefined]
    interfaces, [device.interfaces.includes] is a [TypeError]. *)
Definition filteredWith (k : Collaborators) (l : loc) (rd : ScryptedDevice)
  : Completion (option Device) :=
  match readInterfaces k l with
  | Defined => Return (filtered (describe rd))
  | Undefined => Throw TypeError
  | Throwing e => Throw e
  end.

(** One turn of the loop; a throw leaves the loop, nothing having been
    written in that turn. *)
Definition discoverStepWith (k : Collaborators) (c : ScryptedClientStatic)
    (acc : list Device * World) (id : string) : Completion (list Device * World) :=
  let '(batch, w) := acc in
  let remoteDevice := deviceById c !! id in
  match testAccess remoteDevice w with
  | (Throw _, w) => Return (batch, console_log (LogCannotAccess id) w)
  | (Return (l, rd), w) =>
      match filteredWith k l rd with
      | Throw e => Throw e
      | Return None => Return (batch, console_log (LogNotSupported (rd_name rd)) w)
      | Return (Some device) =>
          Return (batch ++ [device],
                  set_devices <[nativeId device := l]>
                    (console_log (LogFound (rd_name rd) device) w))
      end
  end.

Fixpoint discoverLoopWith (k : Collaborators) (c : ScryptedClientStatic)
    (state : list string) (acc : list Device * World)
  : Completion (list Device) * World :=
  match state with
  | [] => (Return acc.1, acc.2)
  | id :: rest =>
      match discoverStepWith k c acc id with
      | Return acc' => discoverLoopWith k c rest acc'
      | Throw e => (Throw e, acc.2)
      end
  end.

(** The pass: a throw in the loop or a rejected host call ends it there,
    with what the loop has registered and nothing handed to the host. *)
Definition discoverDevicesWith (k : Collaborators) (duration : Z) : M unit :=
  λ w, match client w with
       | None => (Return tt, w)
       | Some c =>
           let state := systemState c in
           match discoverLoopWith k c state ([], w) with
           | (Throw e, w) => (Throw e, w)
           | (Return batch, w) =>
               match devicesChangedAnswer k batch with
               | Some e => (Throw e, w)
               | None =>
                   (modify (onDevicesChanged batch) ;;
                    wireAll batch ;;
                    modify (console_log (LogDiscovered (length batch)))) w
               end
           end
       end.


(** ** Runs of the plugin *)






End Session.

(** ** Vocabulary of the statements *)

(** A credential field that [tryLogin] treats as missing. *)
Definition empty_field (v : option string) : Prop := v = None ∨ v = Some "".

(** How one identifier of the snapshot fares in a discovery pass. *)
Inductive Outcome :=
| Inaccessible (id : string)
| Unsupported (name : string)
| Imported (l : loc) (name : string) (device : Device).

Definition examine (c : ScryptedClientStatic) (h : gmap loc ScryptedDevice)
    (id : string) : Outcome :=
  match deviceById c !! id with
  | Some l =>
      match h !! l with
      | Some rd =>
          match rd_nativeId rd with
          | Readable _ =>
              match filtered (describe rd) with
              | Some device => Imported l (rd_name rd) device
              | None => Unsupported (rd_name rd)
              end
          | Faulty => Inaccessible id
          end
      | None => Inaccessible id
      end
  | None => Inaccessible id
  end.

(** The descriptors, registry updates and console lines a list of outcomes
    stands for. *)
Definition batchOf (os : list Outcome) : list Device :=
  omap (λ o, match o with Imported _ _ device => Some device | _ => None end) os.

Definition register (m : gmap string loc) (o : Outcome) : gmap string loc :=
  match o with
  | Imported l _ device => <[nativeId device := l]> m
  | _ => m
  end.

Definition registerAll (os : list Outcome) (m : gmap string loc) : gmap string loc :=
  foldl register m os.

Definition logOf (o : Outcome) : LogEntry :=
  match o with
  | Inaccessible id => LogCannotAccess id
  | Unsupported name => LogNotSupported name
  | Imported _ name device => LogFound name device
  end.

Definition console_logs (es : list LogEntry) (w : World) : World :=
  mkWorld (client w) (devices w) (settingsStorage w) (heap w) (remote w) (network w)
          (devicesChanged w) (deviceState w) (deviceEvents w) (console w ++ es).

(** The number of "not supported" rejections written to the console. *)
Definition isNotSupported (e : LogEntry) : bool :=
  match e with
  | LogNotSupported _ => true
  | _ => false
  end.

Definition unsupportedCount (es : list LogEntry) : nat :=
  length (filter (λ e, isNotSupported e) es).

(** A handle object after the callbacks for [ifaces] were registered. *)
Definition listening (device : Device) (ifaces : list string) (rd : ScryptedDevice)
  : ScryptedDevice :=
  mkRemote (rd_name rd) (rd_type rd) (rd_interfaces rd) (rd_info rd)
           (rd_id rd) (rd_nativeId rd) (rd_batteryLevel rd) (rd_getVideoStream rd)
           (rd_listeners rd ++ ((λ iface, (iface, device)) <$> ifaces)).

(** A handle object after [setupProxies device] has run on it, and the
    world around it. *)
Definition wired (device : Device) (rd : ScryptedDevice) : ScryptedDevice :=
  mkRemote (rd_name rd) (rd_type rd) (rd_interfaces rd) (rd_info rd)
           (rd_id rd) (rd_nativeId rd) (rd_batteryLevel rd)
           (if decide (ScryptedInterface.VideoCamera ∈ interfaces device)
            then newGetVideoStream (rd_getVideoStream rd)
            else rd_getVideoStream rd)
           (rd_listeners rd ++ ((λ iface, (iface, device)) <$> interfaces device)).

Definition wiredWorld (device : Device) (l : loc) (rd : ScryptedDevice) (w : World) : World :=
  set_heap <[l := wired device rd]>
    (if decide (ScryptedInterface.Battery ∈ interfaces device)
     then setDeviceState (nativeId device) "batteryLevel" (rd_batteryLevel rd) w
     else w).

(** Two stores of handle objects that a discovery pass cannot tell apart:
    the same handles, each with the same descriptor fields and the same
    answer to the access probe. *)
Definition same_descriptors (h h' : gmap loc ScryptedDevice) : Prop :=
  ∀ l, (λ rd, (describe rd, rd_nativeId rd)) <$> h !! l
       = (λ rd, (describe rd, rd_nativeId rd)) <$> h' !! l.

(** What [setupProxies] leaves alone: everything but the local device
    state and, in the handle objects, the listeners and the stream entry
    point. *)
Definition wiring_frame (w w' : World) : Prop :=
  client w' = client w ∧ devices w' = devices w
  ∧ settingsStorage w' = settingsStorage w ∧ remote w' = remote w
  ∧ network w' = network w ∧ devicesChanged w' = devicesChanged w
  ∧ deviceEvents w' = deviceEvents w ∧ console w' = console w
  ∧ same_descriptors (heap w) (heap w').



End Plugin.

(** ** Vocabulary of the wiring of a whole batch *)

Section WiringVocabulary.

Context {RW : Type}.

(** [g] answers every request as [f] answers the same request with [route]
    forced to ["external"]. *)
Definition routed
    (f g : RemoteMethod (RW:=RW) (option RequestMediaStreamOptions) MediaObject) : Prop :=
  ∀ options hub,
    g options hub = f (Some (<["route" := VStr "external"]> (default ∅ options))) hub.

(** [g] answers every request as [f] does. *)
Definition same_stream
    (f g : RemoteMethod (RW:=RW) (option RequestMediaStreamOptions) MediaObject) : Prop :=
  ∀ options hub, g options hub = f options hub.

(** A handle object [rd'] that [rd] may have become through any number of
    calls of [setupProxies]. *)
Definition rewired (rd rd' : ScryptedDevice (RW:=RW)) : Prop :=
  describe rd' = describe rd
  ∧ rd_nativeId rd' = rd_nativeId rd
  ∧ rd_batteryLevel rd' = rd_batteryLevel rd
  ∧ (same_stream (rd_getVideoStream rd) (rd_getVideoStream rd')
     ∨ routed (rd_getVideoStream rd) (rd_getVideoStream rd'))
  ∧ rd_listeners rd `prefix_of` rd_listeners rd'.

Definition heap_rewired (h h' : gmap loc (ScryptedDevice (RW:=RW))) : Prop :=
  ∀ l rd, h !! l = Some rd → ∃ rd', h' !! l = Some rd' ∧ rewired rd rd'.

(** Every descriptor of the batch has a handle with an object behind it
    under its key. *)
Definition registered_live (batch : list Device) (w : World (RW:=RW)) : Prop :=
  ∀ device, device ∈ batch →
    ∃ l, devices w !! nativeId device = Some l ∧ is_Some (heap w !! l).

(** [deviceManager.getDeviceState(nativeId)[property]], read. *)
Definition localState (w : World (RW:=RW)) (nativeId property : string) : option Value :=
  deviceState w !! nativeId ≫= (λ st, st !! property).

(** The listener callback of [device] run on a sequence of events. *)
Definition deliver (device : Device) (events : list (EventDetails * Value))
    (w : World (RW:=RW)) : World :=
  foldl (λ w event, callback device event.1 event.2 w) w events.

End WiringVocabulary.

(** ** The earlier revision of the filter

    The repository's earlier revision of the plugin has the same class
    without [setupProxies]; its filter, [allowlisted], lets three interfaces
    through. *)
Module Earlier.

Definition allowedInterfaces : list string :=
  [ ScryptedInterface.VideoCamera;
    ScryptedInterface.Camera;
    ScryptedInterface.RTCSignalingChannel ].

Definition allowlisted (device : Device) : option Device :=
  let intersection := filter (λ i, i ∈ interfaces device) allowedInterfaces in
  if decide (length intersection = 0%nat) then None
  else Some {| name := name device;
               type := type device;
               interfaces := intersection;
               info := info device;
               nativeId := nativeId device |}.

End Earlier.

(** ** A small installation

    A hub with three devices, as in the specification's scenario: a camera
    with a battery, a thermostat, and a device whose handle has gone stale.
    The hub's state is the log of the stream requests it has served. *)
Module Scenario.

Abbreviation Hub := (list (option RequestMediaStreamOptions)).

Definition stream : RemoteMethod (RW:=Hub) (option RequestMediaStreamOptions) MediaObject :=
  λ options hub, (Return "rtsp://hub/front-door", hub ++ [options]).

Definition camera : ScryptedDevice (RW:=Hub) :=
  mkRemote "Front door" "Camera" ["Battery"; "OnOff"; "VideoCamera"] None "12"
           (Readable (Some "cam-12")) (VNum 87) stream [].

Definition thermostat : ScryptedDevice (RW:=Hub) :=
  mkRemote "Hall" "Thermostat" ["Thermometer"] None "13"
           (Readable None) VUndefined stream [].

Definition stale : ScryptedDevice (RW:=Hub) :=
  mkRemote "Garage" "Camera" ["VideoCamera"] None "14" Faulty VUndefined stream [].

Definition objects : gmap loc (ScryptedDevice (RW:=Hub)) :=
  {[ 1%positive := camera; 2%positive := thermostat; 3%positive := stale ]}.

Definition session : ScryptedClientStatic :=
  mkClient "0.7.2" ["12"; "13"; "14"]
           {[ "12" := 1%positive; "13" := 2%positive; "14" := 3%positive ]}.

Definition connect : RemoteMethod (RW:=Hub) ScryptedClientOptions ScryptedClientStatic :=
  λ _ hub, (Return session, hub).

Definition credentials : StorageValues :=
  mkValues (Some "https://hub.local:10443") (Some "admin") (Some "secret").

Definition start : World (RW:=Hub) := initial credentials objects [].

Definition connected : World (RW:=Hub) := set_client (Some session) start.

Definition cameraDescriptor : Device :=
  mkDevice "Front door" "Camera" ["VideoCamera"; "Battery"] None "12".

End Scenario.

(** The same installation on a day when the thermostat's handle answers
    the probe but has no [interfaces]. *)
Module Outage.



End Outage.

(** * Properties *)

(** ** The capability filter *)

Example filtered_reorders :
  filtered (mkDevice "cam" "Camera" ["Battery"; "OnOff"; "VideoCamera"] None "7")
  = Some (mkDevice "cam" "Camera" ["VideoCamera"; "Battery"] None "7").
Proof. reflexivity. Qed.

Example filtered_rejects :
  filtered (mkDevice "heat" "Thermostat" ["Thermometer"; "OnOff"] None "8") = None.
Proof. reflexivity. Qed.

Lemma allowedInterfaces_NoDup : NoDup allowedInterfaces.
Proof. apply (bool_decide_unpack _). by vm_compute. Qed.

Lemma elem_of_intersection (device : Device) (i : string) :
  i ∈ intersection device ↔ i ∈ allowedInterfaces ∧ i ∈ interfaces device.
Proof. unfold intersection. rewrite list_elem_of_filter. tauto. Qed.

Lemma intersection_nil (device : Device) :
  intersection device = [] ↔ ∀ i, i ∈ allowedInterfaces → i ∉ interfaces device.
Proof.
  split.
  - intros E i Ha Hd.
    assert (i ∈ intersection device) as Hi by (by apply elem_of_intersection).
    rewrite E in Hi. by apply not_elem_of_nil in Hi.
  - intros H. destruct (intersection device) as [|i t] eqn:E; [done|].
    assert (i ∈ intersection device) as Hi by (rewrite E; left).
    apply elem_of_intersection in Hi as [Ha Hd]. by destruct (H i).
Qed.

(** [filtered] answers [null] exactly when the intersection is empty. *)
Lemma filtered_None (device : Device) :
  filtered device = None ↔ intersection device = [].
Proof.
  unfold filtered. case_decide as E.
  - split; [|done]. intros _. by apply length_zero_iff_nil.
  - split; [done|]. intros E'. by rewrite E' in E.
Qed.

Lemma filtered_Some (device device' : Device) :
  filtered device = Some device' →
  device' = mkDevice (name device) (type device) (intersection device)
                     (info device) (nativeId device)
  ∧ intersection device ≠ [].
Proof.
  unfold filtered. case_decide as E; [done|].
  intros [= <-]. split; [done|]. intros E'. by rewrite E' in E.
Qed.

(** C1, as the code has it: when some declared interface is allow-listed,
    [filtered] returns the descriptor with every other field kept and with
    the capability list equal to the allow-list restricted to the declared
    interfaces, in allow-list order and without repetition; that list is
    contained in the declared one, and the containment is strict exactly
    when the device declares an interface outside the allow-list. *)
Theorem filtered_intersection (device : Device) :
  (∃ i, i ∈ allowedInterfaces ∧ i ∈ interfaces device) →
  ∃ device',
    filtered device = Some device'
    ∧ name device' = name device ∧ type device' = type device
    ∧ info device' = info device ∧ nativeId device' = nativeId device
    ∧ interfaces device' = filter (λ i, i ∈ interfaces device) allowedInterfaces
    ∧ (∀ i, i ∈ interfaces device' ↔ i ∈ allowedInterfaces ∧ i ∈ interfaces device)
    ∧ sublist (interfaces device') allowedInterfaces
    ∧ NoDup (interfaces device')
    ∧ interfaces device' ⊆ interfaces device
    ∧ (interfaces device' ⊂ interfaces device
       ↔ ∃ i, i ∈ interfaces device ∧ i ∉ allowedInterfaces).
Proof.
  intros [i [Ha Hd]].
  destruct (filtered device) as [device'|] eqn:F.
  - apply filtered_Some in F as [-> _]. eexists. split; [done|]. simpl.
    split_and!; try done.
    + intros j. apply elem_of_intersection.
    + apply sublist_filter.
    + apply NoDup_filter, allowedInterfaces_NoDup.
    + by intros j [_ ?]%elem_of_intersection.
    + split.
      * intros [_ Hn].
        destruct (decide (Forall (λ j, j ∈ allowedInterfaces) (interfaces device)))
          as [Hall|Hex].
        -- exfalso. apply Hn. intros j Hj. apply elem_of_intersection. split; [|done].
           by eapply (proj1 (Forall_forall _ _) Hall).
        -- apply not_Forall_Exists in Hex; [|apply _].
           apply Exists_exists in Hex as (j & Hj & Hnj). by exists j.
      * intros (j & Hj & Hnj). split.
        -- by intros k [_ ?]%elem_of_intersection.
        -- intros Hsub. by apply Hsub, elem_of_intersection in Hj as [? _].
  - apply filtered_None in F. rewrite intersection_nil in F. by destruct (F i).
Qed.

(** A device all of whose interfaces are allow-listed keeps its whole
    capability set: the result is not a strict subset. *)
Lemma filtered_not_strict_subset :
  let device := mkDevice "Front door" "Camera" ["VideoCamera"] None "12" in
  (∃ i, i ∈ allowedInterfaces ∧ i ∈ interfaces device)
  ∧ ∃ device', filtered device = Some device'
               ∧ ¬ (interfaces device' ⊂ interfaces device).
Proof.
  simpl. split.
  - exists "VideoCamera". split; apply (bool_decide_unpack _); by vm_compute.
  - eexists. split; [reflexivity|]. simpl. intros [_ Hn]. by apply Hn.
Qed.

Lemma filtered_intersection_witness :
  let device := mkDevice "cam" "Camera" ["Battery"; "OnOff"; "VideoCamera"] None "7" in
  ∃ device', filtered device = Some device'
             ∧ interfaces device' = ["VideoCamera"; "Battery"].
Proof.
  simpl.
  destruct (filtered_intersection
              (mkDevice "cam" "Camera" ["Battery"; "OnOff"; "VideoCamera"] None "7"))
    as (device' & F & _ & _ & _ & _ & E & _).
  - exists "Battery". split; apply (bool_decide_unpack _); by vm_compute.
  - exists device'. split; [exact F|]. rewrite E. reflexivity.
Defined.

(** ** Proxy wiring *)

Section Wiring.

Context {RW : Type}.
Implicit Types (w : World (RW:=RW)) (rd : ScryptedDevice (RW:=RW)).

Lemma set_heap_id w l rd :
  heap w !! l = Some rd → set_heap <[l := rd]> w = w.
Proof.
  intros H. destruct w as [c d s h r n dc ds de co]. unfold set_heap. simpl in *.
  f_equal. by apply insert_id.
Qed.

Lemma listening_nil device rd : listening device [] rd = rd.
Proof. destruct rd. unfold listening. simpl. by rewrite app_nil_r. Qed.

Lemma forEach_listen device l ifaces : ∀ w rd,
  heap w !! l = Some rd →
  forEach (listen (Some l) device) ifaces w
  = (Return tt, set_heap <[l := listening device ifaces rd]> w).
Proof.
  induction ifaces as [|iface rest IH]; intros w rd H.
  - simpl. rewrite listening_nil. by rewrite set_heap_id.
  - simpl. unfold bind at 1. unfold listen at 1, bind, deref. rewrite H. simpl.
    erewrite IH; [|simpl; apply lookup_insert_eq].
    f_equal. unfold set_heap. simpl. f_equal.
    rewrite insert_insert_eq. f_equal. unfold listening. simpl.
    by rewrite <- app_assoc.
Qed.

(** [setupProxies] on a live handle, in closed form. *)
Lemma setupProxies_Some device l rd w :
  heap w !! l = Some rd →
  setupProxies device (Some l) w = (Return tt, wiredWorld device l rd w).
Proof.
  intros H. unfold setupProxies, bind at 1.
  rewrite (forEach_listen _ _ _ _ _ H).
  unfold wiredWorld, wired, listening, bind, deref, assignGetVideoStream, modify, ret,
    bind, deref, set_heap, setDeviceState.
  destruct (decide (ScryptedInterface.Battery ∈ interfaces device));
    destruct (decide (ScryptedInterface.VideoCamera ∈ interfaces device));
    simpl; repeat (rewrite lookup_insert_eq; simpl); rewrite ?insert_insert_eq; done.
Qed.

Lemma newGetVideoStream_route
    (remoteGetVideoStream : RemoteMethod (RW:=RW) (option RequestMediaStreamOptions) MediaObject)
    (options : option RequestMediaStreamOptions) (hub : RW) :
  newGetVideoStream remoteGetVideoStream options hub
  = remoteGetVideoStream (Some (<["route" := VStr "external"]> (default ∅ options))) hub.
Proof. by destruct options. Qed.

(** Wrapping twice, as a repeated discovery does, still delegates the same
    request. *)
Lemma newGetVideoStream_twice
    (remoteGetVideoStream : RemoteMethod (RW:=RW) (option RequestMediaStreamOptions) MediaObject)
    (options : option RequestMediaStreamOptions) (hub : RW) :
  newGetVideoStream (newGetVideoStream remoteGetVideoStream) options hub
  = newGetVideoStream remoteGetVideoStream options hub.
Proof. rewrite !newGetVideoStream_route. simpl. by rewrite insert_insert_eq. Qed.

(** C4: once a device with the video capability is wired, a stream request
    made on its handle reaches the original entry point with the caller's
    options (an empty object when none were given) in which [route] is
    ["external"] and every other field is as the caller had it; with no
    options the delegated object is exactly [{ route: "external" }].  The
    outcome and the effect on the hub are those of the original call. *)
Theorem setupProxies_getVideoStream_external device l rd w :
  ScryptedInterface.VideoCamera ∈ interfaces device →
  heap w !! l = Some rd →
  ∃ w',
    setupProxies device (Some l) w = (Return tt, w')
    ∧ remote w' = remote w
    ∧ ∀ options, ∃ delegated,
        getVideoStream (Some l) options w'
        = (let '(r, hub) := rd_getVideoStream rd (Some delegated) (remote w') in
           (r, set_remote hub w'))
        ∧ delegated !! "route" = Some (VStr "external")
        ∧ (∀ k, k ≠ "route" → delegated !! k = default ∅ options !! k)
        ∧ (options = None → delegated = {["route" := VStr "external"]}).
Proof.
  intros Hv H. eexists. split; [by apply setupProxies_Some|].
  split.
  - unfold wiredWorld. by case_decide.
  - intros options. exists (<["route" := VStr "external"]> (default ∅ options)).
    split_and!.
    + unfold getVideoStream, deref, wiredWorld.
      cbn [heap set_heap]. rewrite lookup_insert_eq.
      unfold wired. rewrite decide_True by done. cbn [rd_getVideoStream].
      by rewrite newGetVideoStream_route.
    + apply lookup_insert_eq.
    + intros k Hk. by apply lookup_insert_ne.
    + by intros ->.
Qed.

(** C8: right after a device with the battery capability is wired, and
    with no event delivered, the [batteryLevel] slot of its local state
    holds the handle's current [batteryLevel]. *)
Theorem setupProxies_batteryLevel device l rd w :
  ScryptedInterface.Battery ∈ interfaces device →
  heap w !! l = Some rd →
  ∃ w',
    setupProxies device (Some l) w = (Return tt, w')
    ∧ deviceState w' !! nativeId device ≫= (λ st, st !! "batteryLevel")
      = Some (rd_batteryLevel rd)
    ∧ (∃ rd', heap w' !! l = Some rd' ∧ rd_batteryLevel rd' = rd_batteryLevel rd)
    ∧ deviceEvents w' = deviceEvents w.
Proof.
  intros Hb H. eexists. split; [by apply setupProxies_Some|].
  unfold wiredWorld. rewrite decide_True by done. simpl. split_and!.
  - rewrite lookup_insert_eq. simpl. apply lookup_insert_eq.
  - eexists. split; [apply lookup_insert_eq|done].
  - done.
Qed.

End Wiring.

(** ** Session *)

Section SessionProperties.

Context {RW : Type}.
Variable connectScryptedClient : RemoteMethod (RW:=RW) ScryptedClientOptions ScryptedClientStatic.
Implicit Types (w : World (RW:=RW)) (rd : ScryptedDevice (RW:=RW)).

Lemma truthy_empty_field (v : option string) : truthy v = false ↔ empty_field v.
Proof.
  unfold empty_field. destruct v as [s|]; simpl.
  - rewrite bool_decide_eq_false. split.
    + intros H. right. f_equal. by destruct (decide (s = "")).
    + intros [?|[= ->]]; [done|]. by intros ?.
  - split; [by left|done].
Qed.


(** C6: [tryLogin] starts from no session whatever session there was; a
    failed attempt leaves the session reference null, a session that is
    set afterwards is the one the connection just made returned; and when
    a credential field is empty the call throws the configuration error
    with no connection attempted, the hub untouched and the session
    reference null. *)
Theorem tryLogin_discards_session_first w :
  tryLogin connectScryptedClient w = tryLogin connectScryptedClient (set_client None w)
  ∧ (∀ e, (tryLogin connectScryptedClient w).1 = Throw e →
          client (tryLogin connectScryptedClient w).2 = None)
  ∧ (∀ c, client (tryLogin connectScryptedClient w).2 = Some c →
          ∃ options hub,
            connectScryptedClient options (remote w) = (Return c, hub)
            ∧ network (tryLogin connectScryptedClient w).2 = network w ++ [options])
  ∧ (empty_field (baseUrl (settingsStorage w))
     ∨ empty_field (username (settingsStorage w))
     ∨ empty_field (password (settingsStorage w)) →
     ∃ msg w',
       tryLogin connectScryptedClient w = (Throw (ConfigurationError msg), w')
       ∧ w' = set_client None w
       ∧ network w' = network w ∧ remote w' = remote w ∧ client w' = None).
Proof.
  split_and!.
  - done.
  - intros e. unfold tryLogin, bind, modify, throw. simpl.
    destruct (negb _ || negb _ || negb _); simpl; [done|].
    destruct (connectScryptedClient _ _) as [[c|e'] hub]; simpl; done.
  - intros c. unfold tryLogin, bind, modify, throw. simpl.
    destruct (negb _ || negb _ || negb _); simpl; [done|].
    destruct (connectScryptedClient _ _) as [[c'|e'] hub] eqn:E; simpl; [|done].
    intros [= ->]. by eexists _, _.
  - intros H. unfold tryLogin, bind, modify, throw. simpl.
    rewrite <- !truthy_empty_field in H.
    assert (negb (truthy (baseUrl (settingsStorage w)))
            || negb (truthy (username (settingsStorage w)))
            || negb (truthy (password (settingsStorage w))) = true) as ->.
    { destruct H as [-> | [-> | ->]]; simpl; by rewrite ?orb_true_r. }
    by eexists _, _.
Qed.

End SessionProperties.

(** ** Discovery *)

Section DiscoveryProperties.

Context {RW : Type}.
Implicit Types (w : World (RW:=RW)) (rd : ScryptedDevice (RW:=RW))
  (h : gmap loc (ScryptedDevice (RW:=RW))) (os : list Outcome) (m : gmap string loc).

(** *** Outcomes of the probe and the filter *)

Lemma examine_Imported c h id l n device :
  examine c h id = Imported l n device ↔
  deviceById c !! id = Some l
  ∧ ∃ rd, h !! l = Some rd ∧ (∃ v, rd_nativeId rd = Readable v)
          ∧ filtered (describe rd) = Some device ∧ n = rd_name rd.
Proof.
  unfold examine. split.
  - destruct (deviceById c !! id) as [l'|]; [|done].
    destruct (h !! l') as [rd|] eqn:Hh; [|done].
    destruct (rd_nativeId rd) as [v|] eqn:Hn; [|done].
    destruct (filtered (describe rd)) as [d|] eqn:Hf; [|done].
    intros [= <- <- <-]. split; [done|]. exists rd. eauto.
  - intros (-> & rd & -> & [v ->] & -> & ->). done.
Qed.

Lemma examine_Inaccessible c h id id' :
  examine c h id = Inaccessible id' ↔
  id' = id ∧ ∀ l rd, deviceById c !! id = Some l → h !! l = Some rd →
                     rd_nativeId rd = Faulty.
Proof.
  unfold examine. split.
  - destruct (deviceById c !! id) as [l'|]; [|naive_solver].
    destruct (h !! l') as [rd|] eqn:Hh; [|naive_solver].
    destruct (rd_nativeId rd) as [v|] eqn:Hn.
    + by destruct (filtered (describe rd)).
    + intros [= <-]. split; [done|]. intros l rd' [= <-] Hl. rewrite Hh in Hl. by injection Hl as <-.
  - intros [-> H].
    destruct (deviceById c !! id) as [l'|]; [|done].
    destruct (h !! l') as [rd|] eqn:Hh; [|done].
    by rewrite (H l' rd).
Qed.

(** A throwing probe is the [Inaccessible] outcome. *)
Lemma testAccess_Throw c id w e :
  (testAccess (deviceById c !! id) w).1 = Throw e →
  examine c (heap w) id = Inaccessible id.
Proof.
  unfold testAccess, bind, deref, examine.
  destruct (deviceById c !! id) as [l|]; [|done].
  destruct (heap w !! l) as [rd|]; [|done]. simpl.
  by destruct (rd_nativeId rd).
Qed.

Lemma testAccess_Return (remoteDevice : option loc) w l rd w' :
  testAccess remoteDevice w = (Return (l, rd), w') ↔
  w' = w ∧ remoteDevice = Some l ∧ heap w !! l = Some rd
  ∧ ∃ v, rd_nativeId rd = Readable v.
Proof.
  unfold testAccess, bind, deref. split.
  - destruct remoteDevice as [l0|]; [|done].
    destruct (heap w !! l0) as [rd0|] eqn:Hh; [|done]. simpl.
    destruct (rd_nativeId rd0) as [v|] eqn:Hn; [|done].
    unfold ret. intros [= <- <- <-]. split_and!; try done. by exists v.
  - intros (-> & -> & -> & v & Hv). simpl. by rewrite Hv.
Qed.

Lemma examine_same_descriptors c h h' id :
  same_descriptors h h' → examine c h id = examine c h' id.
Proof.
  intros H. unfold examine. destruct (deviceById c !! id) as [l|]; [|done].
  specialize (H l).
  destruct (h !! l) as [rd|], (h' !! l) as [rd'|]; simpl in H; try done.
  assert (describe rd = describe rd' ∧ rd_nativeId rd = rd_nativeId rd') as [Hd Hn]
    by (split; congruence).
  rewrite Hn, Hd.
  assert (rd_name rd = rd_name rd') as ->; [|done].
  by apply (f_equal name) in Hd.
Qed.

Lemma same_descriptors_refl h : same_descriptors h h.
Proof. by intros l. Qed.

Lemma same_descriptors_trans h1 h2 h3 :
  same_descriptors h1 h2 → same_descriptors h2 h3 → same_descriptors h1 h3.
Proof. intros H1 H2 l. by rewrite H1. Qed.

Lemma same_descriptors_is_Some h h' l :
  same_descriptors h h' → is_Some (h !! l) → is_Some (h' !! l).
Proof.
  intros H [rd Hl]. specialize (H l). rewrite Hl in H.
  destruct (h' !! l); [eauto|done].
Qed.

Lemma same_descriptors_wired h l rd device :
  h !! l = Some rd → same_descriptors h (<[l := wired device rd]> h).
Proof.
  intros H l'. destruct (decide (l = l')) as [<-|Hne].
  - by rewrite lookup_insert_eq, H.
  - by rewrite lookup_insert_ne.
Qed.

(** *** The loop *)

Lemma batchOf_app os os' : batchOf (os ++ os') = batchOf os ++ batchOf os'.
Proof. apply omap_app. Qed.

Lemma registerAll_app os os' m :
  registerAll (os ++ os') m = registerAll os' (registerAll os m).
Proof. apply foldl_app. Qed.

Lemma discoverStep_examine c batch w id :
  discoverStep c (batch, w) id
  = (batch ++ batchOf [examine c (heap w) id],
     set_devices (λ m, register m (examine c (heap w) id))
       (console_log (logOf (examine c (heap w) id)) w)).
Proof.
  unfold discoverStep, testAccess, bind, deref, examine.
  destruct (deviceById c !! id) as [l|]; simpl; [|by rewrite app_nil_r].
  destruct (heap w !! l) as [rd|]; simpl; [|by rewrite app_nil_r].
  destruct (rd_nativeId rd); simpl; [|by rewrite app_nil_r].
  destruct (filtered (describe rd)); simpl; [done|by rewrite app_nil_r].
Qed.

(** The loop in closed form: the batch, the registry updates and the
    console lines are those of the outcomes of the identifiers, in order. *)
Lemma discoverLoop_examine c ids : ∀ batch w,
  discoverLoop c ids (batch, w)
  = (batch ++ batchOf (examine c (heap w) <$> ids),
     set_devices (registerAll (examine c (heap w) <$> ids))
       (console_logs (logOf <$> (examine c (heap w) <$> ids)) w)).
Proof.
  induction ids as [|id ids IH]; intros batch w.
  - simpl. rewrite app_nil_r. f_equal. destruct w. unfold set_devices, console_logs.
    simpl. by rewrite app_nil_r.
  - unfold discoverLoop in *. rewrite !fmap_cons. cbn [foldl].
    rewrite discoverStep_examine, IH. simpl.
    f_equal.
    + rewrite <- app_assoc. f_equal.
      by destruct (examine c (heap w) id).
    + unfold set_devices, console_logs, console_log. simpl. f_equal.
      by rewrite <- app_assoc.
Qed.

(** *** The registry updates of a pass *)

Lemma elem_of_batchOf os device :
  device ∈ batchOf os ↔ ∃ l n, Imported l n device ∈ os.
Proof.
  unfold batchOf. rewrite list_elem_of_omap. split.
  - intros (o & Ho & E). destruct o as [| |l n d]; try done.
    injection E as ->. eauto.
  - intros (l & n & Ho). by exists (Imported l n device).
Qed.

Lemma dom_registerAll os : ∀ m,
  dom (registerAll os m) = dom m ∪ list_to_set (nativeId <$> batchOf os).
Proof.
  induction os as [|o os IH]; intros m.
  - simpl. by rewrite (right_id_L ∅ (∪)).
  - unfold registerAll in *. cbn [foldl]. rewrite IH.
    destruct o as [| |l n d]; simpl; try done.
    rewrite dom_insert_L.
    by rewrite (assoc_L (∪)), (comm_L (∪) {[nativeId d]}).
Qed.

Lemma registerAll_lookup os : ∀ m k l,
  registerAll os m !! k = Some l →
  m !! k = Some l ∨ ∃ n device, Imported l n device ∈ os ∧ nativeId device = k.
Proof.
  induction os as [|o os IH]; intros m k l H.
  - by left.
  - unfold registerAll in *. cbn [foldl] in H. apply IH in H as [H|(n & d & Hin & Hk)].
    + destruct o as [| |l' n' d']; simpl in H; try by left.
      rewrite lookup_insert in H. case_decide as E.
      * injection H as <-. right. exists n', d'. split; [left|done].
      * by left.
    + right. exists n, d. split; [by right|done].
Qed.

Lemma registerAll_union os : ∀ m, registerAll os m = registerAll os ∅ ∪ m.
Proof.
  induction os as [|o os IH]; intros m.
  - simpl. by rewrite (left_id_L ∅ (∪)).
  - unfold registerAll in *. cbn [foldl].
    rewrite (IH (register m o)), (IH (register ∅ o)).
    destruct o as [| |l n d]; simpl.
    + by rewrite (right_id_L ∅ (∪)).
    + by rewrite (right_id_L ∅ (∪)).
    + rewrite insert_union_singleton_l, insert_empty. by rewrite (assoc_L (∪)).
Qed.

(** Registering the same outcomes again overwrites and adds nothing. *)
Lemma registerAll_idemp os m : registerAll os (registerAll os m) = registerAll os m.
Proof.
  rewrite (registerAll_union os (registerAll os m)), (registerAll_union os m).
  by rewrite (assoc_L (∪)), (idemp_L (∪)).
Qed.

(** Every descriptor of the batch finds a registered handle under its key,
    and that handle is one the pass imported. *)
Lemma registerAll_batch os m device :
  device ∈ batchOf os →
  ∃ l n device', registerAll os m !! nativeId device = Some l
                 ∧ Imported l n device' ∈ os ∧ nativeId device' = nativeId device.
Proof.
  intros Hd.
  assert (is_Some (registerAll os ∅ !! nativeId device)) as [l Hl].
  { apply elem_of_dom. rewrite dom_registerAll.
    apply elem_of_union_r, elem_of_list_to_set, list_elem_of_fmap. eauto. }
  destruct (registerAll_lookup _ _ _ _ Hl) as [?|(n & d' & Hin & Hk)]; [done|].
  exists l, n, d'. split_and!; try done.
  rewrite registerAll_union. by apply lookup_union_Some_l.
Qed.

(** *** Wiring the batch *)

Lemma wiring_frame_refl w : wiring_frame w w.
Proof. unfold wiring_frame. split_and!; done. Qed.

Lemma wiring_frame_trans w1 w2 w3 :
  wiring_frame w1 w2 → wiring_frame w2 w3 → wiring_frame w1 w3.
Proof.
  unfold wiring_frame. intros (?&?&?&?&?&?&?&?&?) (?&?&?&?&?&?&?&?&?).
  split_and!; try congruence.
Qed.

Lemma wiring_frame_wiredWorld device l rd w :
  heap w !! l = Some rd → wiring_frame w (wiredWorld device l rd w).
Proof.
  intros H. unfold wiring_frame, wiredWorld.
  case_decide; simpl; split_and!; try done; by apply same_descriptors_wired.
Qed.

(** With every key of the batch registered to a live handle, the wiring
    completes and stays within its frame. *)
Lemma wireAll_frame batch : ∀ w,
  (∀ device, device ∈ batch →
     ∃ l, devices w !! nativeId device = Some l ∧ is_Some (heap w !! l)) →
  ∃ w', wireAll batch w = (Return tt, w') ∧ wiring_frame w w'.
Proof.
  induction batch as [|device batch IH]; intros w H.
  - exists w. split; [done|apply wiring_frame_refl].
  - destruct (H device) as (l & Hl & [rd Hrd]); [left|].
    unfold wireAll in *. cbn [forEach]. unfold bind at 1.
    rewrite Hl, (setupProxies_Some _ _ _ _ Hrd).
    pose proof (wiring_frame_wiredWorld device l rd w Hrd) as F.
    destruct (IH (wiredWorld device l rd w)) as (w' & E & F').
    { intros d Hd. destruct (H d) as (l' & Hl' & Hs); [by right|].
      destruct F as (_ & Hdev & _ & _ & _ & _ & _ & _ & Hsame).
      exists l'. split; [by rewrite Hdev|by eapply same_descriptors_is_Some]. }
    exists w'. split; [done|by eapply wiring_frame_trans].
Qed.

(** *** A whole pass *)

Lemma Imported_live c h (ids : list string) l n device :
  Imported l n device ∈ examine c h <$> ids →
  ∃ rd, h !! l = Some rd ∧ filtered (describe rd) = Some device.
Proof.
  intros (id & E & _)%list_elem_of_fmap. symmetry in E.
  apply examine_Imported in E as (_ & rd & ? & _ & ? & _). eauto.
Qed.

(** With a session, the pass completes; this is what it leaves. *)
Lemma discoverDevices_Some duration c w :
  client w = Some c →
  ∃ w',
    discoverDevices duration w = (Return tt, w')
    ∧ client w' = Some c
    ∧ devices w' = registerAll (examine c (heap w) <$> systemState c) (devices w)
    ∧ devicesChanged w'
      = devicesChanged w ++ [batchOf (examine c (heap w) <$> systemState c)]
    ∧ console w'
      = console w ++ (logOf <$> (examine c (heap w) <$> systemState c))
        ++ [LogDiscovered (length (batchOf (examine c (heap w) <$> systemState c)))]
    ∧ same_descriptors (heap w) (heap w').
Proof.
  intros Hc. unfold discoverDevices. rewrite Hc, discoverLoop_examine.
  rewrite app_nil_l. set (os := examine c (heap w) <$> systemState c).
  unfold bind at 1. unfold modify at 1.
  set (w1 := onDevicesChanged _ _).
  destruct (wireAll_frame (batchOf os) w1) as (w2 & E & F).
  { intros d Hd. destruct (registerAll_batch os (devices w) d Hd) as (l & n & d' & Hl & Hin & _).
    exists l. split; [done|].
    destruct (Imported_live _ _ _ _ _ _ Hin) as (rd & Hrd & _). simpl. eauto. }
  unfold bind. rewrite E. unfold modify.
  destruct F as (F1 & F2 & _ & _ & _ & F6 & _ & F8 & F9).
  eexists. split; [done|]. simpl.
  rewrite F1, F2, F6, F8. simpl. split_and!; try done.
  by rewrite <- app_assoc.
Qed.

(** C9: without a session, [discoverDevices] returns at once and leaves
    the world (the registry and the host's notifications in particular)
    as it was. *)
Theorem discoverDevices_no_session duration w :
  client w = None →
  discoverDevices duration w = (Return tt, w)
  ∧ devices (discoverDevices duration w).2 = devices w
  ∧ devicesChanged (discoverDevices duration w).2 = devicesChanged w.
Proof. intros H. unfold discoverDevices. by rewrite H. Qed.

(** C10: the [duration] argument is never read; two calls that differ only
    in it end alike, registry and notifications included. *)
Theorem discoverDevices_duration_irrelevant (duration1 duration2 : Z) w :
  discoverDevices duration1 w = discoverDevices duration2 w
  ∧ devices (discoverDevices duration1 w).2 = devices (discoverDevices duration2 w).2
  ∧ devicesChanged (discoverDevices duration1 w).2
    = devicesChanged (discoverDevices duration2 w).2.
Proof. done. Qed.

(** C3: two passes in a row, the second on the world the first one left,
    both complete; they hand the host the same batch of descriptors; the
    second leaves the registry as the first left it; and the registry holds
    what it held before plus one key per descriptor. *)
Theorem discoverDevices_twice (duration1 duration2 : Z) w :
  ∃ w1 w2 batches,
    discoverDevices duration1 w = (Return tt, w1)
    ∧ discoverDevices duration2 w1 = (Return tt, w2)
    ∧ devicesChanged w1 = devicesChanged w ++ batches
    ∧ devicesChanged w2 = devicesChanged w1 ++ batches
    ∧ devices w2 = devices w1
    ∧ dom (devices w2) = dom (devices w) ∪ list_to_set (nativeId <$> concat batches)
    ∧ (∀ batch device, batch ∈ batches → device ∈ batch →
         is_Some (devices w2 !! nativeId device))
    ∧ length batches = match client w with Some _ => 1%nat | None => 0%nat end.
Proof.
  destruct (client w) as [c|] eqn:Hc.
  - destruct (discoverDevices_Some duration1 c w Hc) as (w1 & E1 & Hc1 & D1 & B1 & _ & S1).
    destruct (discoverDevices_Some duration2 c w1 Hc1) as (w2 & E2 & _ & D2 & B2 & _ & _).
    assert (examine c (heap w1) <$> systemState c = examine c (heap w) <$> systemState c)
      as Hos.
    { apply list_fmap_ext. intros _ id _. symmetry. by apply examine_same_descriptors. }
    rewrite Hos in D2, B2.
    set (os := examine c (heap w) <$> systemState c) in *.
    assert (devices w2 = devices w1) as D21
      by (by rewrite D2, D1, registerAll_idemp).
    exists w1, w2, [batchOf os]. split_and!; try done.
    + rewrite D21, D1, dom_registerAll. simpl. by rewrite app_nil_r.
    + intros batch d ->%list_elem_of_singleton Hd. rewrite D21, D1.
      destruct (registerAll_batch os (devices w) d Hd) as (l & _ & _ & -> & _). eauto.
  - exists w, w, []. unfold discoverDevices. rewrite Hc. split_and!; try done.
    + by rewrite !app_nil_r.
    + by rewrite !app_nil_r.
    + simpl. by rewrite (right_id_L ∅ (∪)).
    + by intros ?? ?%elem_of_nil.
Qed.

(** *** Devices that a pass leaves out *)

(** An outcome other than [Imported] adds nothing to the batch or the
    registry, wherever it stands in the snapshot. *)
Lemma skip_outcome os1 o os2 :
  (∀ l n device, o ≠ Imported l n device) →
  batchOf (os1 ++ o :: os2) = batchOf (os1 ++ os2)
  ∧ ∀ m, registerAll (os1 ++ o :: os2) m = registerAll (os1 ++ os2) m.
Proof.
  intros H. split; [|intros m].
  - rewrite !batchOf_app. f_equal.
    destruct o as [id|name|l n d]; [done|done|by destruct (H l n d)].
  - rewrite !registerAll_app.
    destruct o as [id|name|l n d]; [done|done|by destruct (H l n d)].
Qed.

(** The snapshot of session [c] without one of its identifiers. *)
Lemma examine_without c ids h id :
  examine (mkClient (serverVersion c) ids (deviceById c)) h id = examine c h id.
Proof. done. Qed.

(** C2: a device none of whose declared interfaces is allow-listed is
    answered with [null] by [filtered]; a pass over a snapshot that lists
    it completes, every descriptor of the batch it hands the host comes
    from another handle, the device's handle enters the registry under no
    key, and registry and notifications end as after a pass over the
    snapshot without the device. *)
Theorem discoverDevices_rejects_unsupported duration c ids1 id ids2 l rd w :
  client w = Some c →
  systemState c = ids1 ++ id :: ids2 →
  deviceById c !! id = Some l →
  heap w !! l = Some rd →
  (∀ i, i ∈ allowedInterfaces → i ∉ rd_interfaces rd) →
  filtered (describe rd) = None
  ∧ ∃ batch w' w0',
      discoverDevices duration w = (Return tt, w')
      ∧ devicesChanged w' = devicesChanged w ++ [batch]
      ∧ (∀ device, device ∈ batch →
           ∃ l' rd', l' ≠ l ∧ heap w !! l' = Some rd'
                     ∧ filtered (describe rd') = Some device)
      ∧ (∀ k, devices w' !! k = Some l → devices w !! k = Some l)
      ∧ discoverDevices duration
          (set_client (Some (mkClient (serverVersion c) (ids1 ++ ids2) (deviceById c))) w)
        = (Return tt, w0')
      ∧ devices w' = devices w0'
      ∧ devicesChanged w' = devicesChanged w0'.
Proof.
  intros Hc Hids Hl Hrd Hempty.
  assert (filtered (describe rd) = None) as Hnone
    by (by apply filtered_None, intersection_nil).
  split; [done|].
  destruct (discoverDevices_Some duration c w Hc) as (w' & E & _ & D & B & _ & _).
  set (c0 := mkClient (serverVersion c) (ids1 ++ ids2) (deviceById c)).
  destruct (discoverDevices_Some duration c0 (set_client (Some c0) w) eq_refl)
    as (w0' & E0 & _ & D0 & B0 & _ & _).
  simpl in D0, B0. rewrite Hids in D, B.
  assert (∀ l' n device, examine c (heap w) id ≠ Imported l' n device) as Hskip.
  { intros l' n d (Hl' & rd' & Hrd' & _ & Hf & _)%examine_Imported.
    rewrite Hl in Hl'. injection Hl' as <-. congruence. }
  rewrite fmap_app, fmap_cons in D, B.
  destruct (skip_outcome (examine c (heap w) <$> ids1) _
              (examine c (heap w) <$> ids2) Hskip) as [Hb Hr].
  rewrite Hb in B. rewrite Hr in D. rewrite <- fmap_app in D, B.
  exists (batchOf (examine c (heap w) <$> ids1 ++ ids2)), w', w0'.
  split_and!; try done.
  - intros d (l' & n & Hin)%elem_of_batchOf.
    destruct (Imported_live _ _ _ _ _ _ Hin) as (rd' & Hrd' & Hf).
    exists l', rd'. split_and!; try done. intros ->. congruence.
  - intros k Hk. rewrite D in Hk.
    apply registerAll_lookup in Hk as [?|(n & d & Hin & _)]; [done|].
    destruct (Imported_live _ _ _ _ _ _ Hin) as (rd' & Hrd' & Hf). congruence.
  - by rewrite D, D0.
  - by rewrite B, B0.
Qed.

(** C7: when probing a device's handle throws, the pass still completes;
    registry and notifications end as after a pass over the snapshot
    without that device; the console has the "cannot access" line for it
    where that pass has nothing, so the device is not among the "not
    supported" rejections; and the batch holds exactly the descriptors
    of the other devices that pass the probe and the filter, each of them
    registered. *)
Theorem discoverDevices_skips_inaccessible duration c ids1 id ids2 e w :
  client w = Some c →
  systemState c = ids1 ++ id :: ids2 →
  (testAccess (deviceById c !! id) w).1 = Throw e →
  ∃ w' w0' before after,
    discoverDevices duration w = (Return tt, w')
    ∧ discoverDevices duration
        (set_client (Some (mkClient (serverVersion c) (ids1 ++ ids2) (deviceById c))) w)
      = (Return tt, w0')
    ∧ devices w' = devices w0'
    ∧ devicesChanged w' = devicesChanged w0'
    ∧ console w' = console w ++ before ++ LogCannotAccess id :: after
    ∧ console w0' = console w ++ before ++ after
    ∧ unsupportedCount (console w') = unsupportedCount (console w0')
    ∧ (∀ id' l rd device,
         id' ∈ ids1 ++ ids2 →
         testAccess (deviceById c !! id') w = (Return (l, rd), w) →
         filtered (describe rd) = Some device →
         (∃ batch, last (devicesChanged w') = Some batch ∧ device ∈ batch)
         ∧ is_Some (devices w' !! nativeId device))
    ∧ (∀ batch device, last (devicesChanged w') = Some batch → device ∈ batch →
         ∃ id' l rd,
           id' ∈ ids1 ++ ids2
           ∧ testAccess (deviceById c !! id') w = (Return (l, rd), w)
           ∧ filtered (describe rd) = Some device).
Proof.
  intros Hc Hids Hthrow.
  destruct (discoverDevices_Some duration c w Hc) as (w' & E & _ & D & B & L & _).
  set (c0 := mkClient (serverVersion c) (ids1 ++ ids2) (deviceById c)).
  destruct (discoverDevices_Some duration c0 (set_client (Some c0) w) eq_refl)
    as (w0' & E0 & _ & D0 & B0 & L0 & _).
  simpl in D0, B0, L0. rewrite Hids in D, B, L.
  change (examine c0 (heap w)) with (examine c (heap w)) in *.
  pose proof (testAccess_Throw _ _ _ _ Hthrow) as Hex.
  rewrite fmap_app, fmap_cons, Hex in D, B, L.
  destruct (skip_outcome (examine c (heap w) <$> ids1) (Inaccessible id)
              (examine c (heap w) <$> ids2)) as [Hb Hr]; [done|].
  rewrite Hb in B, L. rewrite Hr in D. rewrite <- fmap_app in D, B, L.
  rewrite fmap_app in L. simpl in L.
  exists w', w0', (logOf <$> (examine c (heap w) <$> ids1)),
    ((logOf <$> (examine c (heap w) <$> ids2))
     ++ [LogDiscovered (length (batchOf (examine c (heap w) <$> ids1 ++ ids2)))]).
  split_and!; try done.
  - by rewrite D, D0.
  - by rewrite B, B0.
  - rewrite L. by rewrite <- !app_assoc.
  - rewrite L0. by rewrite !fmap_app, <- !app_assoc.
  - rewrite L, L0. unfold unsupportedCount.
    rewrite !fmap_app, <- !app_assoc.
    rewrite !filter_app. by rewrite filter_cons_False by (by intros ?).
  - intros id' l rd d Hin (_ & Hl & Hrd & Hv)%testAccess_Return Hf.
    assert (d ∈ batchOf (examine c (heap w) <$> ids1 ++ ids2)) as Hd.
    { apply elem_of_batchOf. exists l, (rd_name rd). apply list_elem_of_fmap.
      exists id'. split; [|done]. symmetry. apply examine_Imported.
      split; [done|]. by exists rd. }
    split.
    + exists (batchOf (examine c (heap w) <$> ids1 ++ ids2)).
      by rewrite B, last_snoc.
    + rewrite D.
      destruct (registerAll_batch _ (devices w) d Hd) as (l' & _ & _ & -> & _). eauto.
  - rewrite B, last_snoc. intros batch d [= <-].
    intros (l & n' & (id' & Hid' & Hin)%list_elem_of_fmap)%elem_of_batchOf.
    symmetry in Hid'. apply examine_Imported in Hid' as (Hl & rd & Hrd & Hv & Hf & _).
    exists id', l, rd. split_and!; try done.
    apply testAccess_Return. by split_and!.
Qed.

End DiscoveryProperties.

(** ** Passes that throw *)

Section MisbehavingCollaborators.

Context {RW : Type}.
Implicit Types (w : World (RW:=RW)) (rd : ScryptedDevice (RW:=RW))
  (acc : list Device * World (RW:=RW)) (k : Collaborators).

Lemma discoverStepWith_Return k c acc id acc' :
  discoverStepWith k c acc id = Return acc' → discoverStep c acc id = acc'.
Proof.
  destruct acc as [batch w]. unfold discoverStepWith, discoverStep, filteredWith.
  destruct (testAccess (deviceById c !! id) w) as [[[l rd]|e] w1]; [|by intros [= <-]].
  destruct (readInterfaces k l); [|done|done].
  destruct (filtered (describe rd)); by intros [= <-].
Qed.

Lemma discoverStepWith_wellBehaved c acc id :
  discoverStepWith wellBehaved c acc id = Return (discoverStep c acc id).
Proof.
  destruct acc as [batch w]. unfold discoverStepWith, discoverStep, filteredWith.
  destruct (testAccess (deviceById c !! id) w) as [[[l rd]|e] w1]; [|done].
  simpl. by destruct (filtered (describe rd)).
Qed.

(** A throw in a turn leaves the world as the turns before it made it. *)
Lemma discoverLoopWith_cases k c ids : ∀ acc,
  (∃ e ids1 ids2,
     ids = ids1 ++ ids2
     ∧ discoverLoopWith k c ids acc = (Throw e, (discoverLoop c ids1 acc).2))
  ∨ discoverLoopWith k c ids acc
    = (Return (discoverLoop c ids acc).1, (discoverLoop c ids acc).2).
Proof.
  induction ids as [|id ids IH]; intros acc.
  - by right.
  - cbn [discoverLoopWith].
    destruct (discoverStepWith k c acc id) as [acc'|e] eqn:E.
    + apply discoverStepWith_Return in E as <-.
      destruct (IH (discoverStep c acc id)) as [(e & ids1 & ids2 & -> & H)|H].
      * left. exists e, (id :: ids1), ids2. split; [done|]. by rewrite H.
      * right. by rewrite H.
    + left. by exists e, [], (id :: ids).
Qed.

Lemma discoverLoopWith_wellBehaved c ids : ∀ acc,
  discoverLoopWith wellBehaved c ids acc
  = (Return (discoverLoop c ids acc).1, (discoverLoop c ids acc).2).
Proof.
  induction ids as [|id ids IH]; intros acc; [done|].
  cbn [discoverLoopWith]. by rewrite discoverStepWith_wellBehaved, IH.
Qed.

(** A pass either throws, leaving the world as the loop made it on the
    identifiers before the throw, or is the pass of collaborators that
    behave. *)
Lemma discoverDevicesWith_cases k duration w :
  (∃ c e ids1 ids2,
     client w = Some c ∧ systemState c = ids1 ++ ids2
     ∧ discoverDevicesWith k duration w = (Throw e, (discoverLoop c ids1 ([], w)).2))
  ∨ discoverDevicesWith k duration w = discoverDevices duration w.
Proof.
  unfold discoverDevicesWith, discoverDevices.
  destruct (client w) as [c|] eqn:Hc; [|by right].
  destruct (discoverLoopWith_cases k c (systemState c) ([], w))
    as [(e & ids1 & ids2 & Hids & ->)| ->].
  - left. by exists c, e, ids1, ids2.
  - destruct (discoverLoop c (systemState c) ([], w)) as [batch w1] eqn:El. simpl.
    destruct (devicesChangedAnswer k batch) as [e|]; [|by right].
    left. exists c, e, (systemState c), []. rewrite app_nil_r, El. done.
Qed.

Lemma discoverDevicesWith_wellBehaved duration w :
  discoverDevicesWith wellBehaved duration w = discoverDevices duration w.
Proof.
  unfold discoverDevicesWith, discoverDevices.
  destruct (client w) as [c|]; [|done].
  rewrite discoverLoopWith_wellBehaved.
  by destruct (discoverLoop c (systemState c) ([], w)).
Qed.

(** A pass that completes is the pass of collaborators that behave. *)
Lemma discoverDevicesWith_Return k duration w w' :
  discoverDevicesWith k duration w = (Return tt, w') →
  discoverDevices duration w = (Return tt, w').
Proof.
  intros H.
  destruct (discoverDevicesWith_cases k duration w) as [(c & e & ? & ? & _ & _ & E)|E].
  - by rewrite E in H.
  - by rewrite <- E.
Qed.


End MisbehavingCollaborators.

(** ** Runs *)

Section RunProperties.

Context {RW : Type}.
Variable connectScryptedClient : RemoteMethod (RW:=RW) ScryptedClientOptions ScryptedClientStatic.
Implicit Types (w : World (RW:=RW)) (rd : ScryptedDevice (RW:=RW)).







Lemma filtered_descriptor rd device :
  filtered (describe rd) = Some device →
  nativeId device = rd_id rd
  ∧ interfaces device ≠ []
  ∧ interfaces device ⊆ allowedInterfaces
  ∧ ∃ i, i ∈ allowedInterfaces ∧ i ∈ rd_interfaces rd.
Proof.
  intros [-> Hne]%filtered_Some. simpl. split_and!; try done.
  - by intros i [? _]%elem_of_intersection.
  - destruct (intersection (describe rd)) as [|i t] eqn:E; [done|].
    exists i. apply (elem_of_intersection (describe rd)). rewrite E. left.
Qed.






End RunProperties.

(** ** The small installation, run *)

(** The specification's scenario: of a camera, a thermostat and a stale
    device, start-up imports the camera alone. *)
Example scenario_start_up :
  let w := (clearTryDiscoverDevices Scenario.connect Scenario.start).2 in
  (clearTryDiscoverDevices Scenario.connect Scenario.start).1 = Return tt
  ∧ devicesChanged w = [[Scenario.cameraDescriptor]]
  ∧ devices w = {[ "12" := 1%positive ]}
  ∧ deviceState w = {[ "12" := {[ "batteryLevel" := VNum 87 ]} ]}
  ∧ console w = [ LogConnected "0.7.2";
                  LogFound "Front door" Scenario.cameraDescriptor;
                  LogNotSupported "Hall";
                  LogCannotAccess "14";
                  LogDiscovered 1 ].
Proof. vm_compute. repeat split. Qed.

(** ** The statements at the small installation *)

Lemma discoverDevices_no_session_witness :
  client Scenario.start = None
  ∧ discoverDevices 30 Scenario.start = (Return tt, Scenario.start).
Proof.
  split; [reflexivity|].
  apply (discoverDevices_no_session 30 Scenario.start). reflexivity.
Defined.

Lemma setupProxies_getVideoStream_external_witness :
  ∃ w',
    setupProxies Scenario.cameraDescriptor (Some 1%positive) Scenario.connected
    = (Return tt, w')
    ∧ getVideoStream (Some 1%positive) None w'
      = (Return "rtsp://hub/front-door",
         set_remote [Some {[ "route" := VStr "external" ]}] w').
Proof.
  destruct (setupProxies_getVideoStream_external
              Scenario.cameraDescriptor 1%positive Scenario.camera Scenario.connected)
    as (w' & E & Hr & Hopt).
  - apply (bool_decide_unpack _). vm_compute. exact I.
  - reflexivity.
  - destruct (Hopt None) as (delegated & Hcall & _ & _ & Hd).
    exists w'. split; [exact E|].
    rewrite Hcall, (Hd eq_refl), Hr. reflexivity.
Defined.

Lemma setupProxies_batteryLevel_witness :
  ∃ w',
    setupProxies Scenario.cameraDescriptor (Some 1%positive) Scenario.connected
    = (Return tt, w')
    ∧ deviceState w' !! "12" ≫= (λ st, st !! "batteryLevel") = Some (VNum 87).
Proof.
  destruct (setupProxies_batteryLevel
              Scenario.cameraDescriptor 1%positive Scenario.camera Scenario.connected)
    as (w' & E & Hb & _).
  - apply (bool_decide_unpack _). vm_compute. exact I.
  - reflexivity.
  - exists w'. split; [exact E|exact Hb].
Defined.

Lemma tryLogin_discards_session_first_witness :
  let w := set_settingsStorage
             (mkValues (Some "https://hub.local:10443") (Some "admin") (Some ""))
             Scenario.connected in
  ∃ msg w',
    tryLogin Scenario.connect w = (Throw (ConfigurationError msg), w')
    ∧ client w' = None ∧ network w' = [].
Proof.
  simpl.
  destruct (tryLogin_discards_session_first Scenario.connect
              (set_settingsStorage
                 (mkValues (Some "https://hub.local:10443") (Some "admin") (Some ""))
                 Scenario.connected))
    as (_ & _ & _ & H).
  destruct H as (msg & w' & E & _ & Hn & _ & Hc).
  - right. right. right. reflexivity.
  - exists msg, w'. split; [exact E|]. split; [exact Hc|exact Hn].
Defined.

Lemma discoverDevices_rejects_unsupported_witness :
  filtered (describe Scenario.thermostat) = None
  ∧ ∃ batch w',
      discoverDevices 0 Scenario.connected = (Return tt, w')
      ∧ devicesChanged w' = [batch]
      ∧ ∀ k, devices w' !! k = Some 2%positive → False.
Proof.
  destruct (discoverDevices_rejects_unsupported 0 Scenario.session
              ["12"] "13" ["14"] 2%positive Scenario.thermostat Scenario.connected)
    as (Hf & batch & w' & w0' & E & Hb & _ & Hk & _).
  - reflexivity.
  - reflexivity.
  - reflexivity.
  - reflexivity.
  - apply (proj1 (Forall_forall _ _)). apply (bool_decide_unpack _). vm_compute. exact I.
  - split; [exact Hf|]. exists batch, w'. split; [exact E|]. split; [exact Hb|].
    intros k H. apply Hk in H. discriminate H.
Defined.

Lemma discoverDevices_skips_inaccessible_witness :
  ∃ w' before after,
    discoverDevices 0 Scenario.connected = (Return tt, w')
    ∧ console w' = before ++ LogCannotAccess "14" :: after.
Proof.
  destruct (discoverDevices_skips_inaccessible 0 Scenario.session
              ["12"; "13"] "14" [] AccessFault Scenario.connected)
    as (w' & w0' & before & after & E & _ & _ & _ & L & _).
  - reflexivity.
  - reflexivity.
  - reflexivity.
  - exists w', before, after. split; [exact E|exact L].
Defined.



(** * Further properties *)

(** ** The filter, once more *)

Lemma filter_agree {A} (P Q : A → Prop) `{!∀ x, Decision (P x)} `{!∀ x, Decision (Q x)}
    (l : list A) :
  (∀ x, x ∈ l → (P x ↔ Q x)) → filter P l = filter Q l.
Proof.
  induction l as [|x l IH]; intros Hag; [done|].
  assert (filter P l = filter Q l) as E.
  { apply IH. intros y Hy. apply Hag. by right. }
  assert (P x ↔ Q x) as Hx by (apply Hag; left).
  destruct (decide (P x)) as [HP|HP].
  - rewrite (filter_cons_True P) by done.
    rewrite (filter_cons_True Q) by (by apply Hx). by rewrite E.
  - rewrite (filter_cons_False P) by done.
    rewrite (filter_cons_False Q) by (by rewrite <- Hx). done.
Qed.

(** X1: a descriptor that came out of [filtered] goes through it unchanged. *)
Theorem filtered_idempotent (device device' : Device) :
  filtered device = Some device' → filtered device' = Some device'.
Proof.
  intros [-> Hne]%filtered_Some.
  assert (intersection (mkDevice (name device) (type device) (intersection device)
                                 (info device) (nativeId device))
          = intersection device) as E.
  { unfold intersection at 1 3. simpl. apply filter_agree. intros i Hi.
    rewrite elem_of_intersection. tauto. }
  unfold filtered. rewrite E. simpl.
  rewrite decide_False; [done|].
  intros H%length_zero_iff_nil. done.
Qed.

(** X2: only which interfaces a device declares matters to [filtered], not
    their order or repetition: devices declaring the same interfaces get
    the same capability list, or are both rejected. *)
Theorem filtered_declared_set (device1 device2 : Device) :
  (∀ i, i ∈ interfaces device1 ↔ i ∈ interfaces device2) →
  interfaces <$> filtered device1 = interfaces <$> filtered device2.
Proof.
  intros H.
  assert (intersection device1 = intersection device2) as E.
  { unfold intersection. apply filter_agree. intros i _. apply H. }
  unfold filtered. rewrite E. by case_decide.
Qed.

(** X3: what the earlier filter let through, the current one lets through with
    the same fields and the same capabilities in the same order, to which
    it adds at most [Battery] and [MotionSensor]; what only the current
    one lets through has no capability but these two. *)
Theorem filtered_extends_allowlisted (device : Device) :
  match Earlier.allowlisted device with
  | Some device1 =>
      ∃ device2,
        filtered device = Some device2
        ∧ name device2 = name device1 ∧ type device2 = type device1
        ∧ info device2 = info device1 ∧ nativeId device2 = nativeId device1
        ∧ interfaces device1 `prefix_of` interfaces device2
        ∧ ∀ i, i ∈ interfaces device2 →
               i ∈ interfaces device1
               ∨ i = ScryptedInterface.Battery ∨ i = ScryptedInterface.MotionSensor
  | None =>
      ∀ device2, filtered device = Some device2 →
        interfaces device2
        ⊆ [ScryptedInterface.Battery; ScryptedInterface.MotionSensor]
  end.
Proof.
  assert (intersection device
          = filter (λ i, i ∈ interfaces device) Earlier.allowedInterfaces
            ++ filter (λ i, i ∈ interfaces device)
                 [ScryptedInterface.Battery; ScryptedInterface.MotionSensor]) as E.
  { unfold intersection.
    change allowedInterfaces
      with (Earlier.allowedInterfaces
            ++ [ScryptedInterface.Battery; ScryptedInterface.MotionSensor]).
    apply filter_app. }
  unfold Earlier.allowlisted, filtered. rewrite E.
  set (old := filter (λ i, i ∈ interfaces device) Earlier.allowedInterfaces).
  set (new := filter (λ i, i ∈ interfaces device)
                [ScryptedInterface.Battery; ScryptedInterface.MotionSensor]).
  destruct (decide (length old = 0%nat)) as [H0|H0].
  - apply length_zero_iff_nil in H0. rewrite H0. simpl.
    intros device2. case_decide; [done|]. intros [= <-]. simpl.
    intros i Hi. by apply list_elem_of_filter in Hi as [_ ?].
  - rewrite decide_False by (rewrite length_app; lia).
    eexists. split; [done|]. simpl. split_and!; try done.
    + by exists new.
    + intros i [?|Hi]%elem_of_app; [by left|right].
      apply list_elem_of_filter in Hi as [_ Hi].
      apply elem_of_cons in Hi as [->|Hi]; [by left|].
      apply list_elem_of_singleton in Hi as ->. by right.
Qed.

(** ** Listener callbacks *)

Section CallbackProperties.

Context {RW : Type}.
Implicit Types (w : World (RW:=RW)) (rd : ScryptedDevice (RW:=RW)).

Lemma localState_setDeviceState w k p v k' p' :
  localState (setDeviceState k p v w) k' p'
  = if decide (k = k' ∧ p = p') then Some v else localState w k' p'.
Proof.
  unfold localState, setDeviceState. simpl.
  destruct (decide (k = k')) as [<-|Hk].
  - rewrite lookup_insert_eq. simpl.
    destruct (decide (p = p')) as [<-|Hp].
    + rewrite lookup_insert_eq. by rewrite decide_True.
    + rewrite lookup_insert_ne by done. rewrite decide_False by tauto.
      by destruct (deviceState w !! k).
  - rewrite lookup_insert_ne by done. by rewrite decide_False by tauto.
Qed.

(** X4: an event that names a property is written into that slot of the
    device's local state and nowhere else: no other slot changes, no device
    event is raised, registry and handles stay as they are.  A later event
    for the same property therefore overwrites the earlier value. *)
Theorem callback_property device details data p w :
  property details = Some p → p ≠ "" →
  localState (callback device details data w) (nativeId device) p = Some data
  ∧ (∀ k q, (k, q) ≠ (nativeId device, p) →
       localState (callback device details data w) k q = localState w k q)
  ∧ deviceEvents (callback device details data w) = deviceEvents w
  ∧ devices (callback device details data w) = devices w
  ∧ heap (callback device details data w) = heap w.
Proof.
  intros Hp Hne. unfold callback. rewrite Hp, decide_False by done.
  split_and!; try done.
  - rewrite localState_setDeviceState. by rewrite decide_True.
  - intros k q Hkq. rewrite localState_setDeviceState.
    rewrite decide_False; [done|]. intros [<- <-]. done.
Qed.

(** X5: events that name no property are all passed on to the host as device
    events: one entry each, in order, tagged with the device and the
    event's interface; the local device state is not touched. *)
Theorem deliver_events device (events : list (EventDetails * Value)) w :
  Forall (λ event, property event.1 = None ∨ property event.1 = Some "") events →
  deviceEvents (deliver device events w)
  = deviceEvents w
    ++ ((λ event, (nativeId device, eventInterface event.1, event.2)) <$> events)
  ∧ deviceState (deliver device events w) = deviceState w
  ∧ devices (deliver device events w) = devices w.
Proof.
  revert w. induction events as [|[details data] events IH]; intros w H.
  - simpl. by rewrite app_nil_r.
  - apply Forall_cons in H as [Hd H]. simpl in Hd.
    unfold deliver in *. cbn [foldl].
    destruct (IH (callback device (details, data).1 (details, data).2 w) H)
      as (IH1 & IH2 & IH3).
    rewrite IH1, IH2, IH3. clear IH IH1 IH2 IH3.
    unfold callback. simpl.
    destruct Hd as [-> | ->]; simpl; by rewrite <- app_assoc.
Qed.

End CallbackProperties.

(** ** Wiring, in detail *)

Section WiringDetails.

Context {RW : Type}.
Implicit Types (w : World (RW:=RW)) (rd : ScryptedDevice (RW:=RW))
  (h : gmap loc (ScryptedDevice (RW:=RW))).

(** X6: [setupProxies] registers one listener per interface of the descriptor,
    in the descriptor's order, after those already on the handle; run
    again on the same handle it registers them all a second time. *)
Theorem setupProxies_listeners device l rd w :
  heap w !! l = Some rd →
  ∃ w1 w2 rd1 rd2,
    setupProxies device (Some l) w = (Return tt, w1)
    ∧ heap w1 !! l = Some rd1
    ∧ rd_listeners rd1
      = rd_listeners rd ++ ((λ iface, (iface, device)) <$> interfaces device)
    ∧ setupProxies device (Some l) w1 = (Return tt, w2)
    ∧ heap w2 !! l = Some rd2
    ∧ rd_listeners rd2
      = rd_listeners rd ++ ((λ iface, (iface, device)) <$> interfaces device)
        ++ ((λ iface, (iface, device)) <$> interfaces device).
Proof.
  intros H.
  assert (heap (wiredWorld device l rd w) !! l = Some (wired device rd)) as H1.
  { unfold wiredWorld. simpl. apply lookup_insert_eq. }
  exists (wiredWorld device l rd w),
    (wiredWorld device l (wired device rd) (wiredWorld device l rd w)),
    (wired device rd), (wired device (wired device rd)).
  split_and!; try done.
  - by apply setupProxies_Some.
  - by apply setupProxies_Some.
  - unfold wiredWorld at 1. simpl. apply lookup_insert_eq.
  - simpl. by rewrite <- app_assoc.
Qed.

(** X7: [setupProxies] changes nothing but the handle it is given and the
    [batteryLevel] slot of the descriptor's local state: other handles,
    other slots, the registry and the host's notifications stay as they
    are; without the battery capability the local state is untouched, and
    without the video capability the stream entry point is not replaced. *)
Theorem setupProxies_frame device l rd w :
  heap w !! l = Some rd →
  ∃ w' rd',
    setupProxies device (Some l) w = (Return tt, w')
    ∧ heap w' !! l = Some rd'
    ∧ (∀ l', l' ≠ l → heap w' !! l' = heap w !! l')
    ∧ (∀ k p, (k, p) ≠ (nativeId device, "batteryLevel") →
         localState w' k p = localState w k p)
    ∧ devices w' = devices w
    ∧ devicesChanged w' = devicesChanged w
    ∧ deviceEvents w' = deviceEvents w
    ∧ (ScryptedInterface.Battery ∉ interfaces device → deviceState w' = deviceState w)
    ∧ (ScryptedInterface.VideoCamera ∉ interfaces device →
       rd_getVideoStream rd' = rd_getVideoStream rd).
Proof.
  intros H. exists (wiredWorld device l rd w), (wired device rd).
  split; [by apply setupProxies_Some|].
  unfold wiredWorld, wired.
  destruct (decide (ScryptedInterface.Battery ∈ interfaces device));
    destruct (decide (ScryptedInterface.VideoCamera ∈ interfaces device));
    simpl; split_and!; try done;
    try apply lookup_insert_eq;
    try (intros l' Hl'; by apply lookup_insert_ne);
    try (intros k p Hkp;
         change (localState (setDeviceState (nativeId device) "batteryLevel"
                               (rd_batteryLevel rd) w) k p = localState w k p);
         rewrite localState_setDeviceState, decide_False; [done|];
         intros [<- <-]; done).
Qed.

(** *** Handles through repeated wiring *)

Lemma rewired_refl rd : rewired rd rd.
Proof. unfold rewired. split_and!; try done. by left. Qed.

Lemma routed_after_routed
    (f g k : RemoteMethod (RW:=RW) (option RequestMediaStreamOptions) MediaObject) :
  routed f g → routed g k → routed f k.
Proof.
  intros Hfg Hgk options hub. rewrite Hgk, Hfg. simpl. by rewrite insert_insert_eq.
Qed.

Lemma rewired_trans rd1 rd2 rd3 : rewired rd1 rd2 → rewired rd2 rd3 → rewired rd1 rd3.
Proof.
  intros (D1 & N1 & B1 & S1 & L1) (D2 & N2 & B2 & S2 & L2).
  unfold rewired. split_and!; try congruence.
  - destruct S1 as [S1|S1], S2 as [S2|S2].
    + left. intros o hub. by rewrite S2, S1.
    + right. intros o hub. by rewrite S2, S1.
    + right. intros o hub. by rewrite S2, S1.
    + right. by eapply routed_after_routed.
  - by etrans.
Qed.

Lemma rewired_wired device rd : rewired rd (wired device rd).
Proof.
  unfold rewired, wired. simpl. split_and!; try done.
  - case_decide; [right|by left].
    intros o hub. apply newGetVideoStream_route.
  - by eexists.
Qed.

Lemma routed_rewired rd1 rd2 rd3 :
  rewired rd1 rd2 →
  routed (rd_getVideoStream rd2) (rd_getVideoStream rd3) →
  routed (rd_getVideoStream rd1) (rd_getVideoStream rd3).
Proof.
  intros (_ & _ & _ & [S|S] & _) R.
  - intros o hub. by rewrite R, S.
  - by eapply routed_after_routed.
Qed.

Lemma rewired_routed rd1 rd2 rd3 :
  routed (rd_getVideoStream rd1) (rd_getVideoStream rd2) →
  rewired rd2 rd3 →
  routed (rd_getVideoStream rd1) (rd_getVideoStream rd3).
Proof.
  intros R (_ & _ & _ & [S|S] & _).
  - intros o hub. by rewrite S, R.
  - by eapply routed_after_routed.
Qed.

Lemma heap_rewired_refl h : heap_rewired h h.
Proof. intros l rd H. exists rd. split; [done|apply rewired_refl]. Qed.

Lemma heap_rewired_trans h1 h2 h3 :
  heap_rewired h1 h2 → heap_rewired h2 h3 → heap_rewired h1 h3.
Proof.
  intros H12 H23 l rd H. destruct (H12 l rd H) as (rd2 & H2 & R12).
  destruct (H23 l rd2 H2) as (rd3 & H3 & R23).
  exists rd3. split; [done|by eapply rewired_trans].
Qed.

Lemma heap_rewired_wiredWorld device l rd w :
  heap w !! l = Some rd → heap_rewired (heap w) (heap (wiredWorld device l rd w)).
Proof.
  intros H l' rd' H'. unfold wiredWorld. simpl.
  destruct (decide (l = l')) as [<-|Hne].
  - rewrite lookup_insert_eq. eexists. split; [done|].
    rewrite H in H'. injection H' as <-. apply rewired_wired.
  - rewrite lookup_insert_ne by done.
    exists rd'. split; [by case_decide|apply rewired_refl].
Qed.

Lemma devices_wiredWorld device l rd w : devices (wiredWorld device l rd w) = devices w.
Proof. unfold wiredWorld. by case_decide. Qed.

(** One turn of the wiring of a batch. *)
Lemma wireAll_cons device batch w :
  registered_live (device :: batch) w →
  ∃ l rd,
    devices w !! nativeId device = Some l ∧ heap w !! l = Some rd
    ∧ wireAll (device :: batch) w = wireAll batch (wiredWorld device l rd w)
    ∧ registered_live batch (wiredWorld device l rd w).
Proof.
  intros H. destruct (H device) as (l & Hl & [rd Hrd]); [left|].
  exists l, rd. split_and!; try done.
  - unfold wireAll. cbn [forEach]. unfold bind at 1.
    by rewrite Hl, (setupProxies_Some _ _ _ _ Hrd).
  - intros d Hd. destruct (H d) as (l' & Hl' & [rd' Hrd']); [by right|].
    exists l'. rewrite devices_wiredWorld. split; [done|].
    destruct (heap_rewired_wiredWorld device l rd w Hrd l' rd' Hrd') as (? & -> & _).
    eauto.
Qed.

Lemma wireAll_rewired batch : ∀ w w',
  registered_live batch w → wireAll batch w = (Return tt, w') →
  heap_rewired (heap w) (heap w') ∧ devices w' = devices w.
Proof.
  induction batch as [|device batch IH]; intros w w' H E.
  - injection E as <-. split; [apply heap_rewired_refl|done].
  - destruct (wireAll_cons _ _ _ H) as (l & rd & Hl & Hrd & Ew & H1).
    rewrite Ew in E. destruct (IH _ _ H1 E) as [Hh Hd]. split.
    + eapply heap_rewired_trans; [by apply heap_rewired_wiredWorld|done].
    + by rewrite Hd, devices_wiredWorld.
Qed.

(** What the wiring of a descriptor achieves on its handle holds when the
    whole batch is wired, whatever the other turns do to the same handle. *)
Lemma wireAll_establishes
    (Q : Device → ScryptedDevice (RW:=RW) → ScryptedDevice (RW:=RW) → Prop) :
  (∀ device rd, Q device rd (wired device rd)) →
  (∀ device rd0 rd1 rd2, rewired rd0 rd1 → Q device rd1 rd2 → Q device rd0 rd2) →
  (∀ device rd0 rd1 rd2, Q device rd0 rd1 → rewired rd1 rd2 → Q device rd0 rd2) →
  ∀ batch w w',
    registered_live batch w → wireAll batch w = (Return tt, w') →
    ∀ device l rd,
      device ∈ batch → devices w !! nativeId device = Some l → heap w !! l = Some rd →
      ∃ rd', heap w' !! l = Some rd' ∧ Q device rd rd'.
Proof.
  intros Hwired Hpre Hpost.
  induction batch as [|d0 batch IH]; intros w w' H E d l rd Hd Hl Hrd.
  - by apply elem_of_nil in Hd.
  - destruct (wireAll_cons _ _ _ H) as (l0 & rd0 & Hl0 & Hrd0 & Ew & H1).
    rewrite Ew in E.
    apply elem_of_cons in Hd as [->|Hd].
    + rewrite Hl in Hl0. injection Hl0 as <-. rewrite Hrd in Hrd0. injection Hrd0 as <-.
      destruct (wireAll_rewired _ _ _ H1 E) as [Hh _].
      destruct (Hh l (wired d0 rd)) as (rd' & Hrd' & R).
      { unfold wiredWorld. simpl. apply lookup_insert_eq. }
      exists rd'. split; [done|]. eapply Hpost; [apply Hwired|done].
    + destruct (heap_rewired_wiredWorld d0 l0 rd0 w Hrd0 l rd Hrd) as (rd1 & Hrd1 & R1).
      destruct (IH _ _ H1 E d l rd1 Hd) as (rd' & Hrd' & HQ); [|done|].
      { by rewrite devices_wiredWorld. }
      exists rd'. split; [done|]. by eapply Hpre.
Qed.

(** The [batteryLevel] slot of a key, once equal to the battery level of
    the key's handle, stays so through the wiring of a batch. *)
Lemma wireAll_battery_kept batch : ∀ w w' k l rd,
  registered_live batch w → wireAll batch w = (Return tt, w') →
  devices w !! k = Some l → heap w !! l = Some rd →
  localState w k "batteryLevel" = Some (rd_batteryLevel rd) →
  localState w' k "batteryLevel" = Some (rd_batteryLevel rd).
Proof.
  induction batch as [|d0 batch IH]; intros w w' k l rd H E Hl Hrd Hs.
  - by injection E as <-.
  - destruct (wireAll_cons _ _ _ H) as (l0 & rd0 & Hl0 & Hrd0 & Ew & H1).
    rewrite Ew in E.
    destruct (heap_rewired_wiredWorld d0 l0 rd0 w Hrd0 l rd Hrd)
      as (rd1 & Hrd1 & (_ & _ & HB & _)).
    rewrite <- HB.
    eapply (IH _ _ k l rd1 H1 E); [by rewrite devices_wiredWorld|done|].
    rewrite HB. unfold wiredWorld. case_decide as Hb; [|done].
    change (localState (setDeviceState (nativeId d0) "batteryLevel"
                          (rd_batteryLevel rd0) w) k "batteryLevel"
            = Some (rd_batteryLevel rd)).
    rewrite localState_setDeviceState. case_decide as Hk; [|done].
    destruct Hk as [<- _]. rewrite Hl in Hl0. injection Hl0 as <-. congruence.
Qed.

Lemma wireAll_battery batch : ∀ w w' device l rd,
  registered_live batch w → wireAll batch w = (Return tt, w') →
  device ∈ batch → ScryptedInterface.Battery ∈ interfaces device →
  devices w !! nativeId device = Some l → heap w !! l = Some rd →
  localState w' (nativeId device) "batteryLevel" = Some (rd_batteryLevel rd).
Proof.
  induction batch as [|d0 batch IH]; intros w w' d l rd H E Hd Hb Hl Hrd.
  - by apply elem_of_nil in Hd.
  - destruct (wireAll_cons _ _ _ H) as (l0 & rd0 & Hl0 & Hrd0 & Ew & H1).
    rewrite Ew in E.
    destruct (heap_rewired_wiredWorld d0 l0 rd0 w Hrd0 l rd Hrd)
      as (rd1 & Hrd1 & (_ & _ & HB & _)).
    rewrite <- HB.
    apply elem_of_cons in Hd as [->|Hd].
    + rewrite Hl in Hl0. injection Hl0 as <-. rewrite Hrd in Hrd0. injection Hrd0 as <-.
      eapply (wireAll_battery_kept _ _ _ _ l rd1 H1 E);
        [by rewrite devices_wiredWorld|done|].
      rewrite HB. unfold wiredWorld. rewrite decide_True by done.
      change (localState (setDeviceState (nativeId d0) "batteryLevel"
                            (rd_batteryLevel rd) w) (nativeId d0) "batteryLevel"
              = Some (rd_batteryLevel rd)).
      rewrite localState_setDeviceState. by rewrite decide_True.
    + eapply (IH _ _ d l rd1 H1 E); try done. by rewrite devices_wiredWorld.
Qed.

(** The wiring of a batch writes no slot of the local state other than
    [batteryLevel]. *)
Lemma wireAll_other_slots batch : ∀ w w' k p,
  registered_live batch w → wireAll batch w = (Return tt, w') →
  p ≠ "batteryLevel" → localState w' k p = localState w k p.
Proof.
  induction batch as [|d0 batch IH]; intros w w' k p H E Hp.
  - by injection E as <-.
  - destruct (wireAll_cons _ _ _ H) as (l0 & rd0 & Hl0 & Hrd0 & Ew & H1).
    rewrite Ew in E. rewrite (IH _ _ k p H1 E Hp).
    unfold wiredWorld. case_decide; [|done].
    change (localState (setDeviceState (nativeId d0) "batteryLevel"
                          (rd_batteryLevel rd0) w) k p = localState w k p).
    rewrite localState_setDeviceState, decide_False; [done|]. by intros [_ <-].
Qed.

End WiringDetails.

(** ** A pass, in detail *)

Section PassProperties.

Context {RW : Type}.
Implicit Types (w : World (RW:=RW)) (rd : ScryptedDevice (RW:=RW))
  (h : gmap loc (ScryptedDevice (RW:=RW))) (os : list Outcome) (m : gmap string loc).

Lemma length_batchOf os : (length (batchOf os) ≤ length os)%nat.
Proof.
  induction os as [|o os IH]; [done|].
  destruct o; simpl in *; lia.
Qed.

Lemma same_descriptors_Some h h' l rd' :
  same_descriptors h h' → h' !! l = Some rd' →
  ∃ rd, h !! l = Some rd ∧ describe rd = describe rd'.
Proof.
  intros H Hl. specialize (H l). rewrite Hl in H.
  destruct (h !! l) as [rd|]; [|done]. exists rd. split; [done|].
  simpl in H. congruence.
Qed.

(** The pass with a session, cut at the wiring of its batch. *)
Lemma discoverDevices_wiring duration c w :
  client w = Some c →
  ∃ w1 w2,
    w1 = onDevicesChanged (batchOf (examine c (heap w) <$> systemState c))
           (set_devices (registerAll (examine c (heap w) <$> systemState c))
              (console_logs (logOf <$> (examine c (heap w) <$> systemState c)) w))
    ∧ registered_live (batchOf (examine c (heap w) <$> systemState c)) w1
    ∧ wireAll (batchOf (examine c (heap w) <$> systemState c)) w1 = (Return tt, w2)
    ∧ discoverDevices duration w
      = (Return tt,
         console_log
           (LogDiscovered (length (batchOf (examine c (heap w) <$> systemState c)))) w2).
Proof.
  intros Hc. set (os := examine c (heap w) <$> systemState c).
  set (w1 := onDevicesChanged (batchOf os)
               (set_devices (registerAll os) (console_logs (logOf <$> os) w))).
  assert (registered_live (batchOf os) w1) as Hlive.
  { intros d Hd.
    destruct (registerAll_batch os (devices w) d Hd) as (l & n & d' & Hl & Hin & _).
    exists l. split; [done|].
    destruct (Imported_live _ _ _ _ _ _ Hin) as (rd & Hrd & _). simpl. eauto. }
  destruct (wireAll_frame (batchOf os) w1 Hlive) as (w2 & E & _).
  exists w1, w2. split_and!; try done.
  unfold discoverDevices. rewrite Hc, discoverLoop_examine, app_nil_l.
  fold os. unfold bind at 1. unfold modify at 1. fold w1.
  unfold bind. by rewrite E.
Qed.

(** What the wiring of each descriptor achieves on its handle, after a
    whole pass. *)
Lemma discoverDevices_establishes
    (Q : Device → ScryptedDevice (RW:=RW) → ScryptedDevice (RW:=RW) → Prop)
    duration c w :
  (∀ device rd, Q device rd (wired device rd)) →
  (∀ device rd0 rd1 rd2, rewired rd0 rd1 → Q device rd1 rd2 → Q device rd0 rd2) →
  (∀ device rd0 rd1 rd2, Q device rd0 rd1 → rewired rd1 rd2 → Q device rd0 rd2) →
  client w = Some c →
  ∃ w',
    discoverDevices duration w = (Return tt, w')
    ∧ client w' = Some c
    ∧ same_descriptors (heap w) (heap w')
    ∧ heap_rewired (heap w) (heap w')
    ∧ ∀ batch device,
        last (devicesChanged w') = Some batch → device ∈ batch →
        ∃ l rd rd',
          devices w' !! nativeId device = Some l
          ∧ heap w !! l = Some rd ∧ heap w' !! l = Some rd'
          ∧ Q device rd rd'.
Proof.
  intros Hwired Hpre Hpost Hc.
  destruct (discoverDevices_wiring duration c w Hc) as (w1 & w2 & Hw1 & Hlive & E & Ed).
  destruct (wireAll_frame _ w1 Hlive) as (w2' & E' & F).
  rewrite E in E'. injection E' as <-.
  destruct F as (F1 & F2 & _ & _ & _ & F6 & _ & _ & F9).
  destruct (wireAll_rewired _ _ _ Hlive E) as [Hh _].
  eexists. split; [exact Ed|]. simpl.
  assert (heap w1 = heap w) as Hheap by (by rewrite Hw1).
  rewrite Hheap in *.
  split_and!; try done.
  - rewrite F1, Hw1. done.
  - intros batch d. rewrite F6, Hw1. simpl. rewrite last_snoc. intros [= <-] Hd.
    destruct (Hlive d Hd) as (l & Hl & [rd Hrd]). rewrite Hheap in Hrd.
    destruct (wireAll_establishes Q Hwired Hpre Hpost _ _ _ Hlive E d l rd Hd Hl)
      as (rd' & Hrd' & HQ); [by rewrite Hheap|].
    exists l, rd, rd'. by rewrite F2.
Qed.

(** X8: after a pass, every video-capable descriptor of the batch has under
    its key a handle whose stream entry point answers each request as the
    handle's entry point before the pass answers it with [route] forced to
    ["external"]. *)
Theorem discoverDevices_routes_streams duration c w :
  client w = Some c →
  ∃ w',
    discoverDevices duration w = (Return tt, w')
    ∧ ∀ batch device,
        last (devicesChanged w') = Some batch → device ∈ batch →
        ScryptedInterface.VideoCamera ∈ interfaces device →
        ∃ l rd rd',
          devices w' !! nativeId device = Some l
          ∧ heap w !! l = Some rd ∧ heap w' !! l = Some rd'
          ∧ ∀ options hub,
              rd_getVideoStream rd' options hub
              = rd_getVideoStream rd
                  (Some (<["route" := VStr "external"]> (default ∅ options))) hub.
Proof.
  intros Hc.
  destruct (discoverDevices_establishes
              (λ d rd rd', ScryptedInterface.VideoCamera ∈ interfaces d →
                           routed (rd_getVideoStream rd) (rd_getVideoStream rd'))
              duration c w) as (w' & E & _ & _ & _ & H); try done.
  - intros d rd Hv o hub. unfold wired. simpl. rewrite decide_True by done.
    apply newGetVideoStream_route.
  - intros d rd0 rd1 rd2 R HQ Hv. eapply routed_rewired; [done|by apply HQ].
  - intros d rd0 rd1 rd2 HQ R Hv. eapply rewired_routed; [by apply HQ|done].
  - exists w'. split; [done|]. intros batch d Hb Hd Hv.
    destruct (H batch d Hb Hd) as (l & rd & rd' & ? & ? & ? & HQ).
    exists l, rd, rd'. split_and!; try done. by apply HQ.
Qed.

(** X9: a second pass wraps the stream entry point of the same handles again.
    After both passes each video-capable descriptor's handle still answers
    a request as the entry point from before the first pass answers it
    with [route] forced to ["external"]: the request is delegated once. *)
Theorem discoverDevices_twice_routes_streams duration1 duration2 c w :
  client w = Some c →
  ∃ w1 w2,
    discoverDevices duration1 w = (Return tt, w1)
    ∧ discoverDevices duration2 w1 = (Return tt, w2)
    ∧ ∀ batch device,
        last (devicesChanged w2) = Some batch → device ∈ batch →
        ScryptedInterface.VideoCamera ∈ interfaces device →
        ∃ l rd rd2,
          devices w2 !! nativeId device = Some l
          ∧ heap w !! l = Some rd ∧ heap w2 !! l = Some rd2
          ∧ ∀ options hub,
              rd_getVideoStream rd2 options hub
              = rd_getVideoStream rd
                  (Some (<["route" := VStr "external"]> (default ∅ options))) hub.
Proof.
  intros Hc.
  destruct (discoverDevices_establishes (λ _ _ _, True) duration1 c w)
    as (w1 & E1 & Hc1 & Hs1 & Hh1 & _); try done.
  destruct (discoverDevices_establishes
              (λ d rd rd', ScryptedInterface.VideoCamera ∈ interfaces d →
                           routed (rd_getVideoStream rd) (rd_getVideoStream rd'))
              duration2 c w1) as (w2 & E2 & _ & _ & _ & H); try done.
  - intros d rd Hv o hub. unfold wired. simpl. rewrite decide_True by done.
    apply newGetVideoStream_route.
  - intros d rd0 rd1 rd2 R HQ Hv. eapply routed_rewired; [done|by apply HQ].
  - intros d rd0 rd1 rd2 HQ R Hv. eapply rewired_routed; [by apply HQ|done].
  - exists w1, w2. split_and!; try done. intros batch d Hb Hd Hv.
    destruct (H batch d Hb Hd) as (l & rd1 & rd2 & Hl & Hrd1 & Hrd2 & HQ).
    destruct (same_descriptors_Some _ _ _ _ Hs1 Hrd1) as (rd & Hrd & _).
    destruct (Hh1 l rd Hrd) as (rd1' & Hrd1' & R).
    rewrite Hrd1 in Hrd1'. injection Hrd1' as <-.
    exists l, rd, rd2. split_and!; try done.
    eapply routed_rewired; [done|by apply HQ].
Qed.

(** X10: after a pass, the handle under the key of each descriptor of the batch
    carries, for every capability of the descriptor, a listener that
    forwards to that descriptor. *)
Theorem discoverDevices_subscribes duration c w :
  client w = Some c →
  ∃ w',
    discoverDevices duration w = (Return tt, w')
    ∧ ∀ batch device,
        last (devicesChanged w') = Some batch → device ∈ batch →
        ∃ l rd',
          devices w' !! nativeId device = Some l ∧ heap w' !! l = Some rd'
          ∧ ∀ iface, iface ∈ interfaces device → (iface, device) ∈ rd_listeners rd'.
Proof.
  intros Hc.
  destruct (discoverDevices_establishes
              (λ d _ rd', ∀ iface, iface ∈ interfaces d → (iface, d) ∈ rd_listeners rd')
              duration c w) as (w' & E & _ & _ & _ & H); try done.
  - intros d rd iface Hi. unfold wired. simpl. apply elem_of_app. right.
    apply list_elem_of_fmap. by exists iface.
  - intros d rd0 rd1 rd2 HQ (_ & _ & _ & _ & Hp) iface Hi.
    eapply elem_of_prefix; [by apply HQ|done].
  - exists w'. split; [done|]. intros batch d Hb Hd.
    destruct (H batch d Hb Hd) as (l & rd & rd' & ? & ? & ? & HQ).
    by exists l, rd'.
Qed.

(** X11: after a pass, the local state of every battery-capable descriptor of
    the batch has in its [batteryLevel] slot the battery level of the
    handle registered under the descriptor's key. *)
Theorem discoverDevices_seeds_batteryLevel duration c w :
  client w = Some c →
  ∃ w',
    discoverDevices duration w = (Return tt, w')
    ∧ ∀ batch device,
        last (devicesChanged w') = Some batch → device ∈ batch →
        ScryptedInterface.Battery ∈ interfaces device →
        ∃ l rd',
          devices w' !! nativeId device = Some l ∧ heap w' !! l = Some rd'
          ∧ localState w' (nativeId device) "batteryLevel" = Some (rd_batteryLevel rd').
Proof.
  intros Hc.
  destruct (discoverDevices_wiring duration c w Hc) as (w1 & w2 & Hw1 & Hlive & E & Ed).
  destruct (wireAll_frame _ w1 Hlive) as (w2' & E' & F).
  rewrite E in E'. injection E' as <-.
  destruct F as (_ & F2 & _ & _ & _ & F6 & _).
  destruct (wireAll_rewired _ _ _ Hlive E) as [Hh _].
  eexists. split; [exact Ed|]. simpl.
  intros batch d. rewrite F6, Hw1. simpl. rewrite last_snoc. intros [= <-] Hd Hb.
  destruct (Hlive d Hd) as (l & Hl & [rd Hrd]).
  destruct (Hh l rd Hrd) as (rd' & Hrd' & (_ & _ & HB & _)).
  exists l, rd'. rewrite F2. split_and!; try done.
  rewrite HB. by eapply (wireAll_battery _ _ _ _ _ _ Hlive E Hd Hb Hl Hrd).
Qed.

End PassProperties.

(** ** The registry between passes *)

Section RegistryProperties.

Context {RW : Type}.
Implicit Types (w : World (RW:=RW)) (rd : ScryptedDevice (RW:=RW)).

(** X12: [releaseDevice] forgets the key, whatever its first argument: a
    [getDevice] for it then fails as unknown, every other key answers as
    before, the handle itself (listeners, stream entry point) and the
    host's notifications are not touched, and releasing a key that is not
    registered changes nothing. *)
Theorem releaseDevice_getDevice (id nativeId : string) w :
  ∃ w',
    releaseDevice id nativeId w = (Return tt, w')
    ∧ getDevice nativeId w' = (Throw (UnknownDevice nativeId), w')
    ∧ (∀ k, k ≠ nativeId → (getDevice k w').1 = (getDevice k w).1)
    ∧ heap w' = heap w
    ∧ devicesChanged w' = devicesChanged w
    ∧ (devices w !! nativeId = None → w' = w).
Proof.
  eexists. split; [done|]. unfold getDevice. simpl. split_and!; try done.
  - by rewrite lookup_delete_eq.
  - intros k Hk. rewrite lookup_delete_ne by done. by destruct (devices w !! k).
  - intros H. destruct w. unfold set_devices. simpl in *. f_equal. by apply delete_id.
Qed.

(** X13: after a pass, [getDevice] answers the key of every descriptor of the
    batch with a handle that has an object behind it, carries that key as
    its identifier and declares an allow-listed interface; the call
    changes nothing. *)
Theorem discoverDevices_getDevice duration c w :
  client w = Some c →
  ∃ w',
    discoverDevices duration w = (Return tt, w')
    ∧ ∀ batch device,
        last (devicesChanged w') = Some batch → device ∈ batch →
        ∃ l rd,
          getDevice (nativeId device) w' = (Return l, w')
          ∧ heap w' !! l = Some rd
          ∧ rd_id rd = nativeId device
          ∧ ∃ i, i ∈ allowedInterfaces ∧ i ∈ rd_interfaces rd.
Proof.
  intros Hc.
  destruct (discoverDevices_Some duration c w Hc) as (w' & E & _ & D & B & _ & S).
  exists w'. split; [done|]. intros batch d. rewrite B, last_snoc. intros [= <-] Hd.
  destruct (registerAll_batch _ (devices w) d Hd) as (l & n & d' & Hl & Hin & Hk).
  destruct (Imported_live _ _ _ _ _ _ Hin) as (rd & Hrd & Hf).
  apply filtered_descriptor in Hf as (Hid & _ & _ & i & Ha & Hi).
  pose proof (S l) as Sl. rewrite Hrd in Sl.
  destruct (heap w' !! l) as [rd'|] eqn:Hrd'; [|done]. simpl in Sl.
  assert (describe rd = describe rd') as Hdesc by congruence.
  exists l, rd'. unfold getDevice. rewrite D, Hl. split_and!; try done.
  - apply (f_equal nativeId) in Hdesc. simpl in Hdesc. congruence.
  - exists i. split; [done|].
    apply (f_equal interfaces) in Hdesc. simpl in Hdesc. by rewrite <- Hdesc.
Qed.

(** X14: a pass removes nothing from the registry: a key registered before is
    registered after, with the same handle unless a descriptor of this
    pass's batch carries that key. *)
Theorem discoverDevices_keeps_registry duration w :
  ∃ w',
    discoverDevices duration w = (Return tt, w')
    ∧ dom (devices w) ⊆ dom (devices w')
    ∧ ∀ k l, devices w !! k = Some l →
        devices w' !! k = Some l
        ∨ is_Some (client w)
          ∧ ∃ batch device,
              last (devicesChanged w') = Some batch ∧ device ∈ batch
              ∧ nativeId device = k.
Proof.
  destruct (client w) as [c|] eqn:Hc.
  - destruct (discoverDevices_Some duration c w Hc) as (w' & E & _ & D & B & _ & _).
    exists w'. split; [done|]. rewrite D, B, last_snoc. split.
    + rewrite dom_registerAll. apply union_subseteq_l.
    + intros k l Hk. rewrite registerAll_union.
      destruct (registerAll (examine c (heap w) <$> systemState c) ∅ !! k)
        as [l'|] eqn:Hnew.
      * right. split; [done|].
        apply registerAll_lookup in Hnew as [Hnew|(n & d & Hin & Hd)].
        { by rewrite lookup_empty in Hnew. }
        eexists _, d. split_and!; try done. apply elem_of_batchOf. eauto.
      * left. by rewrite lookup_union_r.
  - exists w. unfold discoverDevices. rewrite Hc. split_and!; try done.
    intros k l Hk. by left.
Qed.

(** The batch of a pass with collaborators that behave. *)
Lemma discoverDevices_batch_wellBehaved duration c w :
  client w = Some c →
  ∃ w' batch,
    discoverDevices duration w = (Return tt, w')
    ∧ devicesChanged w' = devicesChanged w ++ [batch]
    ∧ last (console w') = Some (LogDiscovered (length batch))
    ∧ (length batch ≤ length (systemState c))%nat
    ∧ ∀ device, device ∈ batch →
        interfaces device ≠ []
        ∧ NoDup (interfaces device)
        ∧ interfaces device ⊆ allowedInterfaces
        ∧ ∃ id l rd,
            id ∈ systemState c ∧ deviceById c !! id = Some l ∧ heap w !! l = Some rd
            ∧ device = mkDevice (rd_name rd) (rd_type rd)
                         (filter (λ i, i ∈ rd_interfaces rd) allowedInterfaces)
                         (rd_info rd) (rd_id rd).
Proof.
  intros Hc.
  destruct (discoverDevices_Some duration c w Hc) as (w' & E & _ & _ & B & L & _).
  exists w', (batchOf (examine c (heap w) <$> systemState c)).
  split_and!; try done.
  - rewrite L, app_assoc. apply last_snoc.
  - etrans; [apply length_batchOf|]. by rewrite length_fmap.
  - intros d (l & n & (id & Hid & Hin)%list_elem_of_fmap)%elem_of_batchOf.
    symmetry in Hid. apply examine_Imported in Hid as (Hl & rd & Hrd & _ & Hf & _).
    destruct (filtered_Some _ _ Hf) as [-> Hne]. simpl. split_and!; try done.
    + apply NoDup_filter, allowedInterfaces_NoDup.
    + by intros i [? _]%elem_of_intersection.
    + by exists id, l, rd.
Qed.

(** What a pass with collaborators that behave leaves alone. *)
Lemma discoverDevices_frame_wellBehaved duration w :
  ∃ w',
    discoverDevices duration w = (Return tt, w')
    ∧ client w' = client w
    ∧ settingsStorage w' = settingsStorage w
    ∧ network w' = network w
    ∧ remote w' = remote w
    ∧ deviceEvents w' = deviceEvents w
    ∧ ∀ k p, p ≠ "batteryLevel" → localState w' k p = localState w k p.
Proof.
  destruct (client w) as [c|] eqn:Hc.
  - destruct (discoverDevices_wiring duration c w Hc)
      as (w1 & w2 & Hw1 & Hlive & E & Ed).
    destruct (wireAll_frame _ w1 Hlive) as (w2' & E' & F).
    rewrite E in E'. injection E' as <-.
    destruct F as (F1 & _ & F3 & F4 & F5 & _ & F7 & _).
    eexists. split; [exact Ed|]. simpl.
    rewrite F1, F3, F4, F5, F7, Hw1. simpl. split_and!; try done.
    intros k p Hp. pose proof (wireAll_other_slots _ _ _ k p Hlive E Hp) as Ho.
    rewrite Hw1 in Ho. exact Ho.
  - exists w. unfold discoverDevices. by rewrite Hc.
Qed.

(** X15: when a pass with a session completes, it has handed the host
    exactly one batch and reported its size on the console last.  The
    batch has at most one descriptor per identifier of the snapshot; each
    descriptor copies the name, type, metadata and identifier of a handle
    the session answers for some identifier of the snapshot, and its
    capability list is that handle's interfaces cut down to the
    allow-list, so it is non-empty, without repetition and within the
    allow-list. *)
Theorem discoverDevicesWith_batch (k : Collaborators) duration c w w' :
  client w = Some c →
  discoverDevicesWith k duration w = (Return tt, w') →
  ∃ batch,
    devicesChanged w' = devicesChanged w ++ [batch]
    ∧ last (console w') = Some (LogDiscovered (length batch))
    ∧ (length batch ≤ length (systemState c))%nat
    ∧ ∀ device, device ∈ batch →
        interfaces device ≠ []
        ∧ NoDup (interfaces device)
        ∧ interfaces device ⊆ allowedInterfaces
        ∧ ∃ id l rd,
            id ∈ systemState c ∧ deviceById c !! id = Some l ∧ heap w !! l = Some rd
            ∧ device = mkDevice (rd_name rd) (rd_type rd)
                         (filter (λ i, i ∈ rd_interfaces rd) allowedInterfaces)
                         (rd_info rd) (rd_id rd).
Proof.
  intros Hc E%discoverDevicesWith_Return.
  destruct (discoverDevices_batch_wellBehaved duration c w Hc) as (w'' & batch & E' & H).
  rewrite E in E'. injection E' as <-. by exists batch.
Qed.

(** X16: whether it completes or throws, a pass leaves the session, the
    settings, the connection log, the hub and the forwarded device events
    as they were, and writes no slot of the local device state other than
    [batteryLevel]. *)
Theorem discoverDevicesWith_frame (k : Collaborators) duration w :
  client (discoverDevicesWith k duration w).2 = client w
  ∧ settingsStorage (discoverDevicesWith k duration w).2 = settingsStorage w
  ∧ network (discoverDevicesWith k duration w).2 = network w
  ∧ remote (discoverDevicesWith k duration w).2 = remote w
  ∧ deviceEvents (discoverDevicesWith k duration w).2 = deviceEvents w
  ∧ ∀ n p, p ≠ "batteryLevel" →
      localState (discoverDevicesWith k duration w).2 n p = localState w n p.
Proof.
  destruct (discoverDevicesWith_cases k duration w)
    as [(c & e & ids1 & ids2 & _ & _ & ->)| ->].
  - rewrite discoverLoop_examine. simpl. by split_and!.
  - destruct (discoverDevices_frame_wellBehaved duration w) as (w' & -> & H). exact H.
Qed.

End RegistryProperties.

(** ** Logging in and starting over *)

Section SessionDetails.

Context {RW : Type}.
Variable connectScryptedClient : RemoteMethod (RW:=RW) ScryptedClientOptions ScryptedClientStatic.
Implicit Types (w : World (RW:=RW)) (rd : ScryptedDevice (RW:=RW)).

(** [tryLogin] with all three credentials present, in closed form. *)
Lemma tryLogin_configured b u p w :
  settingsStorage w = mkValues (Some b) (Some u) (Some p) →
  b ≠ "" → u ≠ "" → p ≠ "" →
  tryLogin connectScryptedClient w
  = let options := mkClientOptions b "@scrypted/core" u p false in
    let w0 := record_connect options (set_client None w) in
    match connectScryptedClient options (remote w) with
    | (Return c, hub) =>
        (Return tt,
         console_log (LogConnected (serverVersion c))
           (set_client (Some c) (set_remote hub w0)))
    | (Throw e, hub) => (Throw e, set_remote hub w0)
    end.
Proof.
  intros Hs Hb Hu Hp. unfold tryLogin, bind, modify, throw. simpl. rewrite Hs. simpl.
  rewrite !bool_decide_eq_true_2 by done. simpl.
  by destruct (connectScryptedClient _ _) as [[c|e] hub].
Qed.

(** X17: with all three credentials present [tryLogin] makes exactly one
    connection attempt, to the configured address with the configured
    user and password, for the plugin ["@scrypted/core"] and with
    certificate verification off.  If it resolves, that session becomes
    the plugin's and its version is logged; if it rejects, the error is
    thrown on, the session reference stays null and nothing is logged.
    Registry, handles and notifications are not touched either way. *)
Theorem tryLogin_connect_outcome b u p r hub w :
  settingsStorage w = mkValues (Some b) (Some u) (Some p) →
  b ≠ "" → u ≠ "" → p ≠ "" →
  connectScryptedClient (mkClientOptions b "@scrypted/core" u p false) (remote w)
  = (r, hub) →
  ∃ w',
    tryLogin connectScryptedClient w
    = (match r with Return _ => Return tt | Throw e => Throw e end, w')
    ∧ client w' = match r with Return c => Some c | Throw _ => None end
    ∧ network w' = network w ++ [mkClientOptions b "@scrypted/core" u p false]
    ∧ remote w' = hub
    ∧ console w'
      = console w
        ++ match r with Return c => [LogConnected (serverVersion c)] | Throw _ => [] end
    ∧ devices w' = devices w ∧ heap w' = heap w
    ∧ devicesChanged w' = devicesChanged w.
Proof.
  intros Hs Hb Hu Hp Hc. rewrite (tryLogin_configured b u p w Hs Hb Hu Hp). simpl.
  rewrite Hc. destruct r as [c|e]; eexists; (split; [done|]); simpl;
    split_and!; try done. by rewrite app_nil_r.
Qed.

(** X18: when [tryLogin] throws, [clearTryDiscoverDevices] throws the same
    error without running a discovery pass: the session reference is
    null, and registry, handles, local state and notifications are as
    before. *)
Theorem clearTryDiscoverDevices_login_failed e w1 w :
  tryLogin connectScryptedClient w = (Throw e, w1) →
  clearTryDiscoverDevices connectScryptedClient w = (Throw e, w1)
  ∧ client w1 = None
  ∧ devices w1 = devices w ∧ heap w1 = heap w
  ∧ deviceState w1 = deviceState w
  ∧ devicesChanged w1 = devicesChanged w.
Proof.
  intros H. split.
  - unfold clearTryDiscoverDevices, bind. by rewrite H.
  - revert H. unfold tryLogin, bind, modify, throw. simpl.
    destruct (negb _ || negb _ || negb _); simpl.
    + by intros [= _ <-].
    + destruct (connectScryptedClient _ _) as [[c|e'] hub]; simpl; [done|].
      by intros [= _ <-].
Qed.


End SessionDetails.

(** ** The further statements at the small installation *)

Lemma filtered_idempotent_witness :
  filtered Scenario.cameraDescriptor = Some Scenario.cameraDescriptor.
Proof.
  apply (filtered_idempotent (describe Scenario.camera) Scenario.cameraDescriptor).
  reflexivity.
Defined.

Lemma filtered_declared_set_witness :
  interfaces <$> filtered (mkDevice "a" "Camera" ["Battery"; "Camera"; "Battery"] None "1")
  = interfaces <$> filtered (mkDevice "b" "Sensor" ["Camera"; "Battery"] None "2").
Proof.
  apply (filtered_declared_set
           (mkDevice "a" "Camera" ["Battery"; "Camera"; "Battery"] None "1")
           (mkDevice "b" "Sensor" ["Camera"; "Battery"] None "2")).
  intros i. simpl. rewrite !elem_of_cons, elem_of_nil. tauto.
Defined.

Lemma callback_property_witness :
  localState
    (callback Scenario.cameraDescriptor
       (mkEventDetails (Some "motionDetected") "MotionSensor") (VBool true)
       Scenario.connected)
    "12" "motionDetected"
  = Some (VBool true).
Proof.
  apply (callback_property Scenario.cameraDescriptor
           (mkEventDetails (Some "motionDetected") "MotionSensor") (VBool true)
           "motionDetected" Scenario.connected).
  - reflexivity.
  - discriminate.
Defined.

Lemma deliver_events_witness :
  deviceEvents
    (deliver Scenario.cameraDescriptor
       [ (mkEventDetails None "Camera", VStr "snapshot");
         (mkEventDetails (Some "") "Camera", VStr "snapshot") ]
       Scenario.connected)
  = [ ("12", "Camera", VStr "snapshot"); ("12", "Camera", VStr "snapshot") ].
Proof.
  apply (deliver_events Scenario.cameraDescriptor
           [ (mkEventDetails None "Camera", VStr "snapshot");
             (mkEventDetails (Some "") "Camera", VStr "snapshot") ]
           Scenario.connected).
  apply Forall_cons. split; [left; reflexivity|].
  apply Forall_cons. split; [right; reflexivity|].
  apply Forall_nil_2.
Defined.

Lemma setupProxies_listeners_witness :
  ∃ w1 w2 rd2,
    setupProxies Scenario.cameraDescriptor (Some 1%positive) Scenario.connected
    = (Return tt, w1)
    ∧ setupProxies Scenario.cameraDescriptor (Some 1%positive) w1 = (Return tt, w2)
    ∧ heap w2 !! 1%positive = Some rd2
    ∧ length (rd_listeners rd2) = 4%nat.
Proof.
  destruct (setupProxies_listeners Scenario.cameraDescriptor 1%positive
              Scenario.camera Scenario.connected)
    as (w1 & w2 & rd1 & rd2 & E1 & _ & _ & E2 & H2 & L2).
  - reflexivity.
  - exists w1, w2, rd2. split; [exact E1|]. split; [exact E2|]. split; [exact H2|].
    rewrite L2. reflexivity.
Defined.

Lemma setupProxies_frame_witness :
  ∃ w',
    setupProxies (mkDevice "Hall" "Sensor" ["MotionSensor"] None "13")
      (Some 2%positive) Scenario.connected
    = (Return tt, w')
    ∧ deviceState w' = ∅.
Proof.
  destruct (setupProxies_frame (mkDevice "Hall" "Sensor" ["MotionSensor"] None "13")
              2%positive Scenario.thermostat Scenario.connected)
    as (w' & rd' & E & _ & _ & _ & _ & _ & _ & Hb & _).
  - reflexivity.
  - exists w'. split; [exact E|]. apply Hb.
    apply (bool_decide_unpack _). vm_compute. exact I.
Defined.

Lemma discoverDevices_routes_streams_witness :
  client Scenario.connected = Some Scenario.session
  ∧ ∃ w', discoverDevices 0 Scenario.connected = (Return tt, w').
Proof.
  split; [reflexivity|].
  destruct (discoverDevices_routes_streams 0 Scenario.session Scenario.connected)
    as (w' & E & _); [reflexivity|].
  exists w'. exact E.
Defined.

Lemma discoverDevices_twice_routes_streams_witness :
  client Scenario.connected = Some Scenario.session
  ∧ ∃ w1 w2,
      discoverDevices 0 Scenario.connected = (Return tt, w1)
      ∧ discoverDevices 0 w1 = (Return tt, w2).
Proof.
  split; [reflexivity|].
  destruct (discoverDevices_twice_routes_streams 0 0 Scenario.session Scenario.connected)
    as (w1 & w2 & E1 & E2 & _); [reflexivity|].
  exists w1, w2. split; [exact E1|exact E2].
Defined.

Lemma discoverDevices_subscribes_witness :
  client Scenario.connected = Some Scenario.session
  ∧ ∃ w', discoverDevices 0 Scenario.connected = (Return tt, w').
Proof.
  split; [reflexivity|].
  destruct (discoverDevices_subscribes 0 Scenario.session Scenario.connected)
    as (w' & E & _); [reflexivity|].
  exists w'. exact E.
Defined.

Lemma discoverDevices_seeds_batteryLevel_witness :
  client Scenario.connected = Some Scenario.session
  ∧ ∃ w', discoverDevices 0 Scenario.connected = (Return tt, w').
Proof.
  split; [reflexivity|].
  destruct (discoverDevices_seeds_batteryLevel 0 Scenario.session Scenario.connected)
    as (w' & E & _); [reflexivity|].
  exists w'. exact E.
Defined.

Lemma discoverDevices_getDevice_witness :
  client Scenario.connected = Some Scenario.session
  ∧ ∃ w', discoverDevices 0 Scenario.connected = (Return tt, w').
Proof.
  split; [reflexivity|].
  destruct (discoverDevices_getDevice 0 Scenario.session Scenario.connected)
    as (w' & E & _); [reflexivity|].
  exists w'. exact E.
Defined.

Lemma discoverDevicesWith_batch_witness :
  ∃ batch,
    devicesChanged (discoverDevicesWith wellBehaved 0 Scenario.connected).2 = [batch]
    ∧ (length batch ≤ 3)%nat.
Proof.
  destruct (discoverDevicesWith_batch wellBehaved 0 Scenario.session Scenario.connected
              (discoverDevicesWith wellBehaved 0 Scenario.connected).2)
    as (batch & B & _ & L & _).
  - reflexivity.
  - etrans; [apply surjective_pairing|].
    refine (f_equal (λ r, (r, _)) _). vm_compute. reflexivity.
  - exists batch. split; [exact B|exact L].
Defined.

Lemma tryLogin_connect_outcome_witness :
  ∃ w',
    tryLogin Scenario.connect Scenario.start = (Return tt, w')
    ∧ client w' = Some Scenario.session
    ∧ network w'
      = [mkClientOptions "https://hub.local:10443" "@scrypted/core" "admin" "secret" false].
Proof.
  destruct (tryLogin_connect_outcome Scenario.connect
              "https://hub.local:10443" "admin" "secret"
              (Return Scenario.session) [] Scenario.start)
    as (w' & E & Hc & Hn & _).
  - reflexivity.
  - discriminate.
  - discriminate.
  - discriminate.
  - reflexivity.
  - exists w'. split; [exact E|]. split; [exact Hc|exact Hn].
Defined.

Lemma clearTryDiscoverDevices_login_failed_witness :
  let w := set_settingsStorage (mkValues None (Some "admin") (Some "secret"))
             Scenario.connected in
  ∃ e w1,
    clearTryDiscoverDevices Scenario.connect w = (Throw e, w1)
    ∧ client w1 = None ∧ devicesChanged w1 = [].
Proof.
  simpl.
  destruct (clearTryDiscoverDevices_login_failed Scenario.connect
              (ConfigurationError
                 "Initializing remote Scrypted login requires the base URL, username, and password")
              (set_client None
                 (set_settingsStorage (mkValues None (Some "admin") (Some "secret"))
                    Scenario.connected))
              (set_settingsStorage (mkValues None (Some "admin") (Some "secret"))
                 Scenario.connected))
    as (E & Hc & _ & _ & _ & Hd).
  - reflexivity.
  - eexists _, _. split; [exact E|]. split; [exact Hc|exact Hd].
Defined.

